(** * The Morloc lexer: rule table, regex matching and the tokenizer driver

    [src/morloc.py] declares [MorlocLexer], a [RegexLexer] whose whole content
    is the table [tokens]: for every lexer state an ordered list of rules
    (pattern, token type, state transition).  This file embeds

    - the patterns, as a regular-expression syntax tree with the backtracking
      (leftmost, greedy, first-alternative) meaning of Python's [re] module,
      compiled with [re.MULTILINE] as [RegexLexer] does;
    - the table [tokens], rule by rule, in declaration order;
    - the driver loop that walks the text with a state stack.

    A text is a list of Unicode code points.  The code points below 128 are
    classified here; the classification of the others ([uni.Ll], [uni.Lu] of
    [pygments.unistring], and [\w], [\s], [\d] of [re]) is not part of
    [src/] and is taken as a parameter ([unitab]). *)

From Stdlib Require Import NArith String Ascii Arith Bool List Lia.
Import ListNotations.

Local Open Scope N_scope.
Local Open Scope nat_scope.

(** ** Characters and texts *)

Definition char := N.
Bind Scope N_scope with char.
Definition text := list char.

Definition codes (s : string) : text :=
  map N_of_ascii (list_ascii_of_string s).

(** The character tables above ASCII. *)
Record unitab := {
  ext_Ll    : char -> bool;   (* uni.Ll, code points >= 128 *)
  ext_Lu    : char -> bool;   (* uni.Lu, code points >= 128 *)
  ext_word  : char -> bool;   (* \w,     code points >= 128 *)
  ext_space : char -> bool;   (* \s,     code points >= 128 *)
  ext_digit : char -> bool    (* \d,     code points >= 128 *)
}.

(** The tables cut down to ASCII: nothing above 127 is in any class. *)
Definition ascii_only : unitab :=
  {| ext_Ll := fun _ => false; ext_Lu := fun _ => false;
     ext_word := fun _ => false; ext_space := fun _ => false;
     ext_digit := fun _ => false |}.

Definition between (lo hi c : char) : bool :=
  (N.leb lo c && N.leb c hi)%bool.

Definition is_ascii (c : char) : bool := N.ltb c 128.

Section Classes.
Context (U : unitab).

Definition is_Ll (c : char) : bool :=
  if is_ascii c then between 97 122 c else ext_Ll U c.

Definition is_Lu (c : char) : bool :=
  if is_ascii c then between 65 90 c else ext_Lu U c.

Definition is_digit (c : char) : bool :=
  if is_ascii c then between 48 57 c else ext_digit U c.

Definition is_word (c : char) : bool :=
  if is_ascii c
  then (between 97 122 c || between 65 90 c || between 48 57 c
        || N.eqb c 95)%bool
  else ext_word U c.

(* tab, newline, vertical tab, form feed, carriage return; the four
   separators 28..31; the blank *)
Definition is_space (c : char) : bool :=
  if is_ascii c then (between 9 13 c || between 28 32 c)%bool
  else ext_space U c.
End Classes.

(** ** Regular expressions *)

Module Re.

(** What may stand between the brackets of a character class. *)
Inductive citem :=
| One (c : char)
| Rng (lo hi : char)
| Word | Digit | Space          (* \w \d \s *)
| Ll | Lu.                      (* the spliced uni.Ll, uni.Lu *)

Inductive re :=
| Eps
| Chr (c : char)
| Dot                           (* any character but the newline *)
| Cls (neg : bool) (items : list citem)
| Bol | Eol                     (* ^ and $ under re.MULTILINE *)
| Wordb                         (* \b *)
| Cat (a b : re)
| Alt (a b : re)
| Star (a : re)
| Plus (a : re)
| Opt (a : re)
| Grp (i : nat) (a : re).       (* the i-th capturing group *)

Fixpoint seq (rs : list re) : re :=
  match rs with
  | [] => Eps
  | [r] => r
  | r :: rs' => Cat r (seq rs')
  end.

Definition lit (s : string) : re := seq (map Chr (codes s)).

(** A match in progress: the text before the cursor (most recent character
    first), the text from the cursor on, and the groups closed so far, the
    most recent first, each with its start offset and its text. *)
Record mstate := {
  m_left  : text;
  m_right : text;
  m_caps  : list (nat * (nat * text))
}.

Definition eat (c : char) (cs : text) (st : mstate) : mstate :=
  {| m_left := c :: m_left st; m_right := cs; m_caps := m_caps st |}.

(** The text matched between a cursor with [l] before it and the later
    state [st']. *)
Definition matched (l : text) (st' : mstate) : text :=
  rev (firstn (length (m_left st') - length l) (m_left st')).

Definition close (i : nat) (st st' : mstate) : mstate :=
  {| m_left := m_left st'; m_right := m_right st';
     m_caps :=
       (i, (length (m_left st), matched (m_left st) st')) :: m_caps st' |}.

Section Matching.
Context (U : unitab).

Definition item_has (c : char) (it : citem) : bool :=
  match it with
  | One d => N.eqb c d
  | Rng lo hi => between lo hi c
  | Word => is_word U c
  | Digit => is_digit U c
  | Space => is_space U c
  | Ll => is_Ll U c
  | Lu => is_Lu U c
  end.

Definition in_class (neg : bool) (items : list citem) (c : char) : bool :=
  xorb neg (existsb (item_has c) items).

Definition word_at (o : option char) : bool :=
  match o with Some c => is_word U c | None => false end.

Definition one (p : char -> bool) (st : mstate)
           (k : mstate -> option mstate) : option mstate :=
  match m_right st with
  | c :: cs => if p c then k (eat c cs st) else None
  | [] => None
  end.

Definition orelse (a b : option mstate) : option mstate :=
  match a with Some x => Some x | None => b end.

(** Greedy repetition of a matcher [m]: one more round first, the
    continuation when that fails.  A round that consumes nothing ends
    the repetition, as in [re]. *)
Fixpoint star_loop (m : mstate -> (mstate -> option mstate) -> option mstate)
         (fuel : nat) (st : mstate) (k : mstate -> option mstate)
  : option mstate :=
  match fuel with
  | O => k st
  | S fuel' =>
      orelse
        (m st (fun st' =>
                 if length (m_left st) <? length (m_left st')
                 then star_loop m fuel' st' k
                 else None))
        (k st)
  end.

Fixpoint mtch (r : re) (st : mstate) (k : mstate -> option mstate)
         {struct r} : option mstate :=
  match r with
  | Eps => k st
  | Chr c => one (N.eqb c) st k
  | Dot => one (fun x => negb (N.eqb x 10)) st k
  | Cls neg items => one (in_class neg items) st k
  | Bol =>
      match m_left st with
      | [] => k st
      | c :: _ => if N.eqb c 10 then k st else None
      end
  | Eol =>
      match m_right st with
      | [] => k st
      | c :: _ => if N.eqb c 10 then k st else None
      end
  | Wordb =>
      if xorb (word_at (hd_error (m_left st)))
              (word_at (hd_error (m_right st)))
      then k st else None
  | Cat a b => mtch a st (fun st' => mtch b st' k)
  | Alt a b => orelse (mtch a st k) (mtch b st k)
  | Star a => star_loop (mtch a) (S (length (m_right st))) st k
  | Plus a =>
      mtch a st (fun st' =>
                   star_loop (mtch a) (S (length (m_right st'))) st' k)
  | Opt a => orelse (mtch a st k) (k st)
  | Grp i a => mtch a st (fun st' => k (close i st st'))
  end.

(** [pattern.match(text, pos)]: the match anchored at the cursor. *)
Definition rematch (r : re) (l rt : text) : option mstate :=
  mtch r {| m_left := l; m_right := rt; m_caps := [] |} Some.
End Matching.

(** *** Shapes of patterns, decided on the syntax *)

(** [nullable r]: [r] may match without consuming a character. *)
Fixpoint nullable (r : re) : bool :=
  match r with
  | Eps | Bol | Eol | Wordb | Star _ | Opt _ => true
  | Chr _ | Dot | Cls _ _ => false
  | Cat a b => nullable a && nullable b
  | Alt a b => nullable a || nullable b
  | Plus a | Grp _ a => nullable a
  end.

Fixpoint groupfree (r : re) : bool :=
  match r with
  | Grp _ _ => false
  | Cat a b | Alt a b => groupfree a && groupfree b
  | Star a | Plus a | Opt a => groupfree a
  | _ => true
  end.

(** [tiled r i = Some j]: [r] is a sequence of the groups [i], ...,
    [j-1], one after the other, with nothing but zero-width assertions
    between them and no group inside a group: the groups partition
    whatever [r] matches. *)
Fixpoint tiled (r : re) (i : nat) : option nat :=
  match r with
  | Eps | Bol | Eol | Wordb => Some i
  | Grp j a => if Nat.eqb j i && groupfree a then Some (S i) else None
  | Cat a b =>
      match tiled a i with
      | Some j => tiled b j
      | None => None
      end
  | _ => None
  end.

(** [st'] is [st] with the cursor moved over [w]. *)
Definition extends (st st' : mstate) (w : text) : Prop :=
  m_left st' = rev w ++ m_left st /\ m_right st = w ++ m_right st'.

(** [tiles p i j cs w]: the captures [cs] (most recent first) are those
    of the groups [i], ..., [j-1], laid end to end from offset [p], and
    [w] is their texts put together. *)
Inductive tiles : nat -> nat -> nat -> list (nat * (nat * text)) -> text
                  -> Prop :=
| tiles_nil p i : tiles p i i [] []
| tiles_snoc p i j cs w u :
    tiles p i j cs w ->
    tiles p i (S j) ((j, (p + length w, u)) :: cs) (w ++ u).

(** What a successful match of [r] from [st] to [st'] over [w] obeys. *)
Definition post (r : re) (st st' : mstate) (w : text) : Prop :=
  extends st st' w /\
  (nullable r = false -> w <> []) /\
  (groupfree r = true -> m_caps st' = m_caps st) /\
  (forall i j, tiled r i = Some j ->
     exists cs, m_caps st' = cs ++ m_caps st /\
                tiles (length (m_left st)) i j cs w).

End Re.

(** ** Token types

    The token types of [pygments.token] that the table uses; a dotted name
    [Keyword.Reserved] is written [Keyword_Reserved]. *)

Module Token.

Inductive t :=
| Text | Whitespace | Error
| Keyword | Keyword_Reserved | Keyword_Type
| Name | Name_Builtin
| String | String_Escape
| Number_Float | Number_Bin | Number_Oct | Number_Hex | Number_Integer
| Operator_Word
| Punctuation
| Comment_Single | Comment_Multiline.

Definition eqb (a b : t) : bool :=
  match a, b with
  | Text, Text | Whitespace, Whitespace | Error, Error
  | Keyword, Keyword | Keyword_Reserved, Keyword_Reserved
  | Keyword_Type, Keyword_Type
  | Name, Name | Name_Builtin, Name_Builtin
  | String, String | String_Escape, String_Escape
  | Number_Float, Number_Float | Number_Bin, Number_Bin
  | Number_Oct, Number_Oct | Number_Hex, Number_Hex
  | Number_Integer, Number_Integer
  | Operator_Word, Operator_Word
  | Punctuation, Punctuation
  | Comment_Single, Comment_Single
  | Comment_Multiline, Comment_Multiline => true
  | _, _ => false
  end.

(** Membership in a top-level category: [t in Keyword], [t in Comment]. *)
Definition is_keyword (x : t) : bool :=
  match x with
  | Keyword | Keyword_Reserved | Keyword_Type => true
  | _ => false
  end.

Definition is_comment (x : t) : bool :=
  match x with
  | Comment_Single | Comment_Multiline => true
  | _ => false
  end.

End Token.

(** ** Lexer states *)

Module St.

Inductive name :=
| root | comment | module | string | escape | sourcelist | importList.

End St.

(** ** The rule table of [MorlocLexer] *)

Module Morloc.

Import Re.

(** The second component of a rule: a token type, or [bygroups(...)]. *)
Inductive action :=
| Tok (t : Token.t)
| bygroups (ts : list Token.t).

(** What follows the token type in a rule tuple: a state name, [#push]
    or [#pop]. *)
Inductive target :=
| to (s : St.name)
| push
| pop.

Record rule := {
  pat   : re;
  act   : action;
  trans : list target
}.

(** In the comments that quote a pattern, [Q] stands for the double quote
    and a blank keeps a star from a closing parenthesis. *)
Definition ch (a : ascii) : char := N_of_ascii a.
Definition dquote : char := 34.
Definition squote : char := 39.
Definition bslash : char := 92.

Definition set (s : string) : list citem := map One (codes s).

Definition s_ : re := Cls false [Space].            (* \s *)
Definition d_ : re := Cls false [Digit].            (* \d *)
Definition w_ : re := Cls false [Word].             (* \w *)
Definition us : re := Star (Chr (ch "_")).          (* _* *)
Definition letter : re :=                           (* [A-Za-z] *)
  Cls false [Rng (ch "A") (ch "Z"); Rng (ch "a") (ch "z")].
Definition hexd : re :=                             (* [\da-fA-F] *)
  Cls false [Digit; Rng (ch "a") (ch "f"); Rng (ch "A") (ch "F")].
Definition wq : re := Cls false [Word; One squote]. (* [\w'] *)
Definition quoted : re :=                           (* Q[^Q]+Q *)
  seq [Chr dquote; Plus (Cls true [One dquote]); Chr dquote].
Definition sign : re := Opt (Cls false (set "+-")). (* [+-]? *)

(** [d(_*d)*] with the group numbered [i]. *)
Definition run_of (i : nat) (d : re) : re :=
  Cat d (Star (Grp i (Cat us d))).

Definition KR := Token.Keyword_Reserved.
Definition WS := Token.Whitespace.

Definition root : list rule := [
  {| pat := lit "where"; act := Tok KR; trans := [] |};
  {| pat := Plus s_; act := Tok WS; trans := [] |};
  (* --.*$ *)
  {| pat := seq [lit "--"; Star Dot; Eol];
     act := Tok Token.Comment_Single; trans := [] |};
  {| pat := lit "{-"; act := Tok Token.Comment_Multiline;
     trans := [to St.comment] |};
  {| pat := seq [Wordb; lit "module"; Wordb]; act := Tok KR;
     trans := [to St.module] |};
  (* (source)(\s+)([A-Za-z]+)(\s* )(\() *)
  {| pat := seq [Grp 1 (lit "source"); Grp 2 (Plus s_); Grp 3 (Plus letter);
                 Grp 4 (Star s_); Grp 5 (Chr (ch "("))];
     act := bygroups [KR; WS; Token.Name; WS; Token.Text];
     trans := [push; to St.sourcelist] |};
  (* (source)(\s+)([A-Za-z]+)(\s+)(from)(\s+)(Q[^Q]+Q)(\s* )(\() *)
  {| pat := seq [Grp 1 (lit "source"); Grp 2 (Plus s_); Grp 3 (Plus letter);
                 Grp 4 (Plus s_); Grp 5 (lit "from"); Grp 6 (Plus s_);
                 Grp 7 quoted; Grp 8 (Star s_); Grp 9 (Chr (ch "("))];
     act := bygroups [KR; WS; Token.Name; WS; KR; WS; Token.String; WS;
                      Token.Text];
     trans := [push; to St.sourcelist] |};
  (* (type)(\s+)([A-Z][A-Za-z]* ) *)
  {| pat := seq [Grp 1 (lit "type"); Grp 2 (Plus s_);
                 Grp 3 (Cat (Cls false [Rng (ch "A") (ch "Z")])
                            (Star letter))];
     act := bygroups [KR; WS; Token.Name]; trans := [] |};
  (* ^(export)(\s+)([\w+]) *)
  {| pat := seq [Bol; Grp 1 (lit "export"); Grp 2 (Plus s_);
                 Grp 3 (Cls false [Word; One (ch "+")])];
     act := bygroups [KR; WS; Token.Name]; trans := [] |};
  (* (\bimport\b)(\s+)([a-zA-Z.][\w]+) *)
  {| pat := seq [Grp 1 (seq [Wordb; lit "import"; Wordb]); Grp 2 (Plus s_);
                 Grp 3 (Cat (Cls false [Rng (ch "a") (ch "z");
                                        Rng (ch "A") (ch "Z");
                                        One (ch ".")])
                            (Plus w_))];
     act := bygroups [KR; WS; Token.Name]; trans := [] |};
  (* (\bimport\b)(\() *)
  {| pat := seq [Grp 1 (seq [Wordb; lit "import"; Wordb]);
                 Grp 2 (Chr (ch "("))];
     act := bygroups [KR; Token.Punctuation];
     trans := [to St.importList] |};
  (* (object|table|record)(\s+)([A-Z]\w+)(\s* )(=) *)
  {| pat := seq [Grp 1 (Alt (lit "object") (Alt (lit "table") (lit "record")));
                 Grp 2 (Plus s_);
                 Grp 3 (Cat (Cls false [Rng (ch "A") (ch "Z")]) (Plus w_));
                 Grp 4 (Star s_); Grp 5 (Chr (ch "="))];
     act := bygroups [KR; WS; Token.Name; WS; Token.Operator_Word];
     trans := [] |};
  (* identifiers *)
  {| pat := Cat (Cls false [Ll]) (Star wq); act := Tok Token.Name;
     trans := [] |};
  {| pat := Cat (Cls false [Lu]) (Star wq); act := Tok Token.Name;
     trans := [] |};
  (* (')\[[^\]]*\] *)
  {| pat := seq [Grp 1 (Chr squote); Chr (ch "[");
                 Star (Cls true [One (ch "]")]); Chr (ch "]")];
     act := Tok Token.Keyword_Type; trans := [] |};
  (* (')\([^)]*\) *)
  {| pat := seq [Grp 1 (Chr squote); Chr (ch "(");
                 Star (Cls true [One (ch ")")]); Chr (ch ")")];
     act := Tok Token.Keyword_Type; trans := [] |};
  (* (')[:!#$%&*+.\\/<=>?@^|~-]+ *)
  {| pat := Cat (Grp 1 (Chr squote))
                (Plus (Cls false (set ":!#$%&*+.\/<=>?@^|~-")));
     act := Tok Token.Keyword_Type; trans := [] |};
  (* (<-|::|->|=>|=|\.|\\|@) *)
  {| pat := Grp 1 (Alt (lit "<-") (Alt (lit "::") (Alt (lit "->")
                  (Alt (lit "=>") (Alt (lit "=") (Alt (lit ".")
                  (Alt (Chr bslash) (lit "@"))))))));
     act := Tok Token.Operator_Word; trans := [] |};
  (* 0[xX]_*[\da-fA-F](_*[\da-fA-F])*_*[pP][+-]?\d(_*\d)* *)
  {| pat := seq [Chr (ch "0"); Cls false (set "xX"); us; run_of 1 hexd; us;
                 Cls false (set "pP"); sign; run_of 2 d_];
     act := Tok Token.Number_Float; trans := [] |};
  (* 0[xX]_*[\da-fA-F](_*[\da-fA-F])*\.[\da-fA-F](_*[\da-fA-F])*
     (_*[pP][+-]?\d(_*\d)* )? *)
  {| pat := seq [Chr (ch "0"); Cls false (set "xX"); us; run_of 1 hexd;
                 Chr (ch "."); run_of 2 hexd;
                 Opt (Grp 3 (seq [us; Cls false (set "pP"); sign;
                                  run_of 4 d_]))];
     act := Tok Token.Number_Float; trans := [] |};
  (* \d(_*\d)*_*[eE][+-]?\d(_*\d)* *)
  {| pat := seq [run_of 1 d_; us; Cls false (set "eE"); sign; run_of 2 d_];
     act := Tok Token.Number_Float; trans := [] |};
  (* \d(_*\d)*\.\d(_*\d)*(_*[eE][+-]?\d(_*\d)* )? *)
  {| pat := seq [run_of 1 d_; Chr (ch "."); run_of 2 d_;
                 Opt (Grp 3 (seq [us; Cls false (set "eE"); sign;
                                  run_of 4 d_]))];
     act := Tok Token.Number_Float; trans := [] |};
  (* 0[bB]_*[01](_*[01])* *)
  {| pat := seq [Chr (ch "0"); Cls false (set "bB"); us;
                 run_of 1 (Cls false (set "01"))];
     act := Tok Token.Number_Bin; trans := [] |};
  (* 0[oO]_*[0-7](_*[0-7])* *)
  {| pat := seq [Chr (ch "0"); Cls false (set "oO"); us;
                 run_of 1 (Cls false [Rng (ch "0") (ch "7")])];
     act := Tok Token.Number_Oct; trans := [] |};
  (* 0[xX]_*[\da-fA-F](_*[\da-fA-F])* *)
  {| pat := seq [Chr (ch "0"); Cls false (set "xX"); us; run_of 1 hexd];
     act := Tok Token.Number_Hex; trans := [] |};
  (* \d(_*\d)* *)
  {| pat := run_of 1 d_; act := Tok Token.Number_Integer; trans := [] |};
  (* character and string literals *)
  {| pat := Chr dquote; act := Tok Token.String; trans := [to St.string] |};
  (* special *)
  {| pat := lit "[]"; act := Tok Token.Keyword_Type; trans := [] |};
  {| pat := lit "()"; act := Tok Token.Name_Builtin; trans := [] |};
  (* [][(),;`{}] *)
  {| pat := Cls false (set "][(),;`{}"); act := Tok Token.Punctuation;
     trans := [] |}
].

Definition comment : list rule := [
  {| pat := Cls true (set "-{}"); act := Tok Token.Comment_Multiline;
     trans := [] |};
  {| pat := lit "{-"; act := Tok Token.Comment_Multiline; trans := [push] |};
  {| pat := lit "-}"; act := Tok Token.Comment_Multiline; trans := [pop] |};
  {| pat := Cls false (set "-{}"); act := Tok Token.Comment_Multiline;
     trans := [] |}
].

Definition module : list rule := [
  {| pat := Plus s_; act := Tok WS; trans := [] |};
  (* [Ll][\w.]* *)
  {| pat := Cat (Cls false [Ll]) (Star (Cls false [Word; One (ch ".")]));
     act := Tok Token.Name; trans := [pop] |}
].

Definition string : list rule := [
  (* [^\\Q]+ *)
  {| pat := Plus (Cls true [One bslash; One dquote]); act := Tok Token.String;
     trans := [] |};
  {| pat := Chr bslash; act := Tok Token.String_Escape;
     trans := [to St.escape] |};
  {| pat := Chr dquote; act := Tok Token.String; trans := [pop] |}
].

Definition escape : list rule := [
  (* [abfnrtvQ\'&\\] *)
  {| pat := Cls false (set "abfnrtv" ++ [One dquote; One squote;
                                         One (ch "&"); One bslash]);
     act := Tok Token.String_Escape; trans := [pop] |};
  (* \^[][Lu@^_] *)
  {| pat := Cat (Chr (ch "^"))
                (Cls false (set "][" ++ [Lu] ++ set "@^_"));
     act := Tok Token.String_Escape; trans := [pop] |};
  (* o[0-7]+ *)
  {| pat := Cat (Chr (ch "o")) (Plus (Cls false [Rng (ch "0") (ch "7")]));
     act := Tok Token.String_Escape; trans := [pop] |};
  (* x[\da-fA-F]+ *)
  {| pat := Cat (Chr (ch "x")) (Plus hexd);
     act := Tok Token.String_Escape; trans := [pop] |};
  {| pat := Plus d_; act := Tok Token.String_Escape; trans := [pop] |};
  (* (\s+)(\\) *)
  {| pat := Cat (Grp 1 (Plus s_)) (Grp 2 (Chr bslash));
     act := bygroups [WS; Token.String_Escape]; trans := [pop] |}
].

(** The plain string rule and the alias rule of the state [sourcelist]. *)
Definition string_rule : rule :=
  {| pat := quoted; act := Tok Token.String; trans := [] |}.

(* (Q[^Q]+Q)(\s+)(as)(\s+)([\w]+) *)
Definition alias_rule : rule :=
  {| pat := seq [Grp 1 quoted; Grp 2 (Plus s_); Grp 3 (lit "as");
                 Grp 4 (Plus s_); Grp 5 (Plus w_)];
     act := bygroups [Token.String; WS; Token.Keyword; WS; Token.Name];
     trans := [] |}.

Definition sourcelist : list rule := [
  {| pat := Plus s_; act := Tok WS; trans := [] |};
  {| pat := Chr (ch "("); act := Tok Token.Text; trans := [push] |};
  {| pat := Chr (ch ")"); act := Tok Token.Text; trans := [pop] |};
  string_rule;
  {| pat := Chr (ch ","); act := Tok Token.Punctuation; trans := [] |};
  alias_rule
].

Definition importList : list rule := [
  {| pat := Plus s_; act := Tok WS; trans := [] |};
  {| pat := Chr (ch "("); act := Tok Token.Text; trans := [push] |};
  {| pat := Chr (ch ")"); act := Tok Token.Text; trans := [pop] |};
  (* [A-Za-z][\w]* *)
  {| pat := Cat letter (Star w_); act := Tok Token.Name; trans := [] |};
  {| pat := Chr (ch ","); act := Tok Token.Punctuation; trans := [] |}
].

Definition tokens (s : St.name) : list rule :=
  match s with
  | St.root => root
  | St.comment => comment
  | St.module => module
  | St.string => string
  | St.escape => escape
  | St.sourcelist => sourcelist
  | St.importList => importList
  end.

End Morloc.

(** ** The tokenizer driver *)

Module Lexer.

Import Re Morloc.

(** An emitted span: where it starts in the input, its token type and its
    text; it ends at [sp_start + length sp_text]. *)
Record span := {
  sp_start : nat;
  sp_type  : Token.t;
  sp_text  : text
}.

Definition sp_end (s : span) : nat := sp_start s + length (sp_text s).

(** The driver's state: the input split at the cursor (the part before
    the cursor most recent character first) and the state stack, its top
    first. *)
Record dstate := {
  left  : text;
  right : text;
  stack : list St.name
}.

Definition cursor (st : dstate) : nat := length (left st).

Definition top (stk : list St.name) : St.name := hd St.root stk.

Definition init (txt : text) : dstate :=
  {| left := []; right := txt; stack := [St.root] |}.

(** Modelled from the spec: the stack discipline of the driver of the base
    class [RegexLexer], which is not in [src/].  A state name is pushed,
    [#push] pushes the active state again, [#pop] drops the top and is a
    no-op on the floor state; the targets of one rule are applied in
    sequence. *)
Definition apply (stk : list St.name) (tg : target) : list St.name :=
  match tg with
  | to s => s :: stk
  | push => top stk :: stk
  | pop => match stk with
           | _ :: (_ :: _) as below => below
           | _ => stk
           end
  end.

Definition transition (tgs : list target) (stk : list St.name)
  : list St.name :=
  fold_left apply tgs stk.

Definition group (caps : list (nat * (nat * text))) (i : nat)
  : option (nat * text) :=
  option_map snd (find (fun p => Nat.eqb (fst p) i) caps).

(** Modelled from the spec: [bygroups], which is not in [src/].  The
    groups are taken in pattern order, from group 1 on; a group that took
    part in the match yields a span of its type. *)
Fixpoint group_spans (caps : list (nat * (nat * text))) (i : nat)
         (ts : list Token.t) : list span :=
  match ts with
  | [] => []
  | t :: ts' =>
      match group caps i with
      | Some (p, w) => [{| sp_start := p; sp_type := t; sp_text := w |}]
      | None => []
      end ++ group_spans caps (S i) ts'
  end.

Definition emit (a : action) (st : dstate) (m : mstate) : list span :=
  match a with
  | Tok t =>
      [{| sp_start := cursor st; sp_type := t;
          sp_text := matched (left st) m |}]
  | bygroups ts => group_spans (m_caps m) 1 ts
  end.

Definition error_span (st : dstate) (c : char) : span :=
  {| sp_start := cursor st; sp_type := Token.Error; sp_text := [c] |}.

Section Driver.
Context (U : unitab).
Context (table : St.name -> list rule).

(** The first rule of the list whose pattern matches at the cursor. *)
Fixpoint first_match (rules : list rule) (st : dstate)
  : option (rule * mstate) :=
  match rules with
  | [] => None
  | r :: rules' =>
      match rematch U (pat r) (left st) (right st) with
      | Some m => Some (r, m)
      | None => first_match rules' st
      end
  end.

Definition after (r : rule) (st : dstate) (m : mstate) : dstate :=
  {| left := m_left m; right := m_right m;
     stack := transition (trans r) (stack st) |}.

Definition skip (c : char) (cs : text) (st : dstate) : dstate :=
  {| left := c :: left st; right := cs; stack := stack st |}.

(** Modelled from the spec: one iteration of the driver loop of
    [RegexLexer], which is not in [src/].  The rules of the state on top
    of the stack are tried in order and the first that matches is taken:
    its spans are emitted, the cursor moves to the end of the match and
    its transition is applied.  When none matches, one [Error] span
    covers the character at the cursor, the cursor moves by one and the
    stack is left alone. *)
Definition step (st : dstate) : list span * dstate :=
  match first_match (table (top (stack st))) st with
  | Some (r, m) => (emit (act r) st m, after r st m)
  | None =>
      match right st with
      | c :: cs => ([error_span st c], skip c cs st)
      | [] => ([], st)
      end
  end.

(** Modelled from the spec: the driver loop, which runs while the cursor
    is before the end of the input.  [fuel] bounds the number of
    iterations; [None] means that it ran out. *)
Fixpoint run (fuel : nat) (st : dstate) : option (list span) :=
  match right st with
  | [] => Some []
  | _ :: _ =>
      match fuel with
      | O => None
      | S fuel' =>
          option_map (app (fst (step st))) (run fuel' (snd (step st)))
      end
  end.

(** The state reached after [n] iterations. *)
Fixpoint steps (n : nat) (st : dstate) : dstate :=
  match n with
  | O => st
  | S n' => steps n' (snd (step st))
  end.

Definition tokenize_with (txt : text) : option (list span) :=
  run (length txt) (init txt).
End Driver.

Definition tokenize (U : unitab) : text -> option (list span) :=
  tokenize_with U tokens.

(** *** Well-formedness of a table, and chains of spans *)

(** A rule consumes at least one character, and the groups of a
    [bygroups] rule partition its match, one group per token type. *)
Definition rule_ok (r : rule) : bool :=
  negb (nullable (pat r)) &&
  match act r with
  | Tok _ => true
  | bygroups ts =>
      match tiled (pat r) 1 with
      | Some j => Nat.eqb j (S (length ts))
      | None => false
      end
  end.

Definition table_ok (table : St.name -> list rule) : Prop :=
  forall s, forallb rule_ok (table s) = true.

(** [chained a l b]: the spans of [l] lie end to end from offset [a] to
    offset [b]. *)
Fixpoint chained (a : nat) (l : list span) (b : nat) : Prop :=
  match l with
  | [] => a = b
  | s :: l' => sp_start s = a /\ chained (sp_end s) l' b
  end.

Definition texts (l : list span) : text := concat (map sp_text l).

End Lexer.


(** ** Table variants and inputs used in the statements *)

Module Sample.

Import Re Morloc Lexer.

(** The token types a rule can emit. *)
Definition types (a : action) : list Token.t :=
  match a with
  | Tok t => [t]
  | bygroups ts => ts
  end.

Definition emits_error (r : rule) : bool :=
  existsb (Token.eqb Token.Error) (types (act r)).

(** The state [sourcelist] and the table without the alias rule. *)
Definition sourcelist_short : list rule :=
  removelast sourcelist.

Definition tokens_short (s : St.name) : list rule :=
  match s with
  | St.sourcelist => sourcelist_short
  | _ => tokens s
  end.

(** The table read with the first target of a rule only: a second target,
    as in the two [source] rules, is dropped. *)
Definition first_target (r : rule) : rule :=
  {| pat := pat r; act := act r; trans := firstn 1 (trans r) |}.

Definition tokens_first_target (s : St.name) : list rule :=
  map first_target (tokens s).

Definition span_at (p : nat) (t : Token.t) (w : text) : span :=
  {| sp_start := p; sp_type := t; sp_text := w |}.

Definition all_comment (l : list span) : bool :=
  forallb (fun s => Token.is_comment (sp_type s)) l.

Definition at_line_start (st : dstate) : Prop :=
  left st = [] \/ exists l, left st = 10%N :: l.

Definition nested_comment : text :=
  codes "{- outer {- inner -} still outer -}".
Definition module_upper : text := codes "module Foo.Bar".
Definition module_lower : text := codes "module foo.bar".
Definition source_alias : text :=
  codes "source R (" ++ [dquote] ++ codes "f" ++ [dquote] ++ codes " as g)".
Definition export_foo : text := codes "export foo".
Definition wherever : text := codes "wherever".
Definition bad_escape : text := [dquote; bslash] ++ codes "z" ++ [dquote].
Definition good_escape : text := [dquote; bslash] ++ codes "n" ++ [dquote].
Definition stray : text := codes "# x".

End Sample.

(** ** Further notions used in the statements about the table *)

Module Probe.

Import Re Morloc Lexer.

Section Starts.
Context (U : unitab).

(** [starts r c]: a match of [r] that consumes something may begin with
    the character [c].  The zero-width assertions are passed over, so this
    errs on the side of [true]. *)
Fixpoint starts (r : re) (c : char) : bool :=
  match r with
  | Eps | Bol | Eol | Wordb => false
  | Chr d => N.eqb d c
  | Dot => negb (N.eqb c 10)
  | Cls neg items => in_class U neg items c
  | Cat a b => starts a c || (nullable a && starts b c)
  | Alt a b => starts a c || starts b c
  | Star a | Plus a | Opt a | Grp _ a => starts a c
  end.

(** No rule of the list can begin a match with [c]. *)
Definition none_starts (rules : list rule) (c : char) : bool :=
  forallb (fun r => negb (nullable (pat r)) && negb (starts (pat r) c)) rules.
End Starts.

(** The text [tail] does not go on with a character of the class [p]. *)
Definition stops (p : char -> bool) (tail : text) : Prop :=
  match tail with
  | [] => True
  | c :: _ => p c = false
  end.

Definition first_of (r : char -> bool) (w : text) : Prop :=
  match w with
  | [] => True
  | c :: _ => r c = true
  end.

(** Characters that no rule of [root] accepts as the start of a token. *)
Definition unlexed_in_root : text := codes "!#$%&*+/>?^_|~".

(** [n] comment openers, [n] comment closers. *)
Definition opens (n : nat) : text := concat (repeat (codes "{-") n).
Definition closes (n : nat) : text := concat (repeat (codes "-}") n).

(** Which state may lie directly on which in the stack. *)
Definition allowed (upper lower : St.name) : bool :=
  match upper, lower with
  | St.root, St.root
  | St.comment, St.root | St.comment, St.comment
  | St.module, St.root
  | St.string, St.root
  | St.escape, St.string
  | St.sourcelist, St.root | St.sourcelist, St.sourcelist
  | St.importList, St.root | St.importList, St.importList => true
  | _, _ => false
  end.

(** A stack with [root] at the bottom and only allowed neighbours. *)
Fixpoint wf_stack (stk : list St.name) : bool :=
  match stk with
  | [] => false
  | [s] => match s with St.root => true | _ => false end
  | u :: (l :: _) as below => allowed u l && wf_stack below
  end.

(** What the state [sourcelist] has a rule for, blanks apart: the two
    parentheses, the comma and the double quote. *)
Definition sourcelist_marks : text := codes "()," ++ [dquote].

(** The class of the identifier rules, [\w] and the apostrophe; the class
    of the plain part of a string. *)
Definition ident_char (U : unitab) (c : char) : bool :=
  in_class U false [Word; One squote] c.

Definition plain_char (U : unitab) (c : char) : bool :=
  in_class U true [One bslash; One dquote] c.

Definition not_newline (c : char) : bool := negb (N.eqb c 10).

(** The one-character escapes of the state [escape]. *)
Definition simple_escapes : text :=
  codes "abfnrtv" ++ [dquote; squote; ch "&"; bslash].

(** The operators of the rule of [root] for specials, but [=], which is
    also the start of [=>]. *)
Definition operators : list text :=
  [codes "<-"; codes "::"; codes "->"; codes "=>"; codes "."; [bslash];
   codes "@"].

(** The letters [A-Z] and [a-z]; the class [\w]. *)
Definition ascii_letter (c : char) : bool :=
  between 65 90 c || between 97 122 c.

Definition word_char (U : unitab) (c : char) : bool :=
  in_class U false [Word] c.

(** The digits [0] to [9]; the characters that may carry a numeric literal
    on after its digits. *)
Definition ascii_digit (c : char) : bool := between 48 57 c.

Definition number_more (U : unitab) (c : char) : bool :=
  is_digit U c || existsb (N.eqb c) (codes "_.eExXbBoO").

(** The states whose first rule, or second after [where], is [\s+]. *)
Definition skips_blanks (s : St.name) : bool :=
  match s with
  | St.root | St.module | St.sourcelist | St.importList => true
  | _ => false
  end.

End Probe.

(** * Properties of the matcher *)

Module ReFacts.

Import Re.

Lemma extends_refl st : extends st st [].
Proof. split; reflexivity. Qed.

Lemma extends_trans st st1 st2 w1 w2 :
  extends st st1 w1 -> extends st1 st2 w2 -> extends st st2 (w1 ++ w2).
Proof.
  intros [L1 R1] [L2 R2]. split.
  - rewrite L2, L1, rev_app_distr, app_assoc. reflexivity.
  - rewrite R1, R2, app_assoc. reflexivity.
Qed.

Lemma extends_length st st' w :
  extends st st' w -> length (m_left st') = length (m_left st) + length w.
Proof.
  intros [L _]. rewrite L, length_app, length_rev. lia.
Qed.

Lemma matched_app l st' w :
  m_left st' = rev w ++ l -> matched l st' = w.
Proof.
  intros L. unfold matched. rewrite L, length_app, length_rev.
  replace (length w + length l - length l)
    with (length (rev w) + 0) by (rewrite length_rev; lia).
  rewrite firstn_app_2. simpl. rewrite app_nil_r. apply rev_involutive.
Qed.

Lemma matched_extends st st' w :
  extends st st' w -> matched (m_left st) st' = w.
Proof. intros [L _]. apply matched_app, L. Qed.

Lemma tiles_le p i j cs w : tiles p i j cs w -> i <= j.
Proof. induction 1; lia. Qed.

Lemma tiles_app p i j l cs1 cs2 w1 w2 :
  tiles p i j cs1 w1 ->
  tiles (p + length w1) j l cs2 w2 ->
  tiles p i l (cs2 ++ cs1) (w1 ++ w2).
Proof.
  intros H1 H2. remember (p + length w1) as q eqn:Eq.
  induction H2 as [q j|q j l cs w u H2 IH]; subst.
  - rewrite app_nil_r. exact H1.
  - simpl. rewrite app_assoc.
    replace (p + length w1 + length w) with (p + length (w1 ++ w))
      by (rewrite length_app; lia).
    constructor. apply IH; auto.
Qed.

Lemma tiles_one p i w : tiles p i (S i) [(i, (p, w))] w.
Proof.
  pose proof (tiles_snoc p i i [] [] w (tiles_nil p i)) as H.
  simpl in H. rewrite Nat.add_0_r in H. exact H.
Qed.

Section Sound.
Context (U : unitab).

Lemma orelse_some a b res :
  orelse a b = Some res -> a = Some res \/ b = Some res.
Proof. destruct a; simpl; auto. Qed.

Lemma one_sound p st k res :
  one p st k = Some res ->
  exists c cs, m_right st = c :: cs /\ p c = true /\
               k (eat c cs st) = Some res.
Proof.
  unfold one. destruct (m_right st) as [|c cs]; [discriminate|].
  destruct (p c) eqn:E; [|discriminate]. eauto.
Qed.

Lemma eat_extends st c cs :
  m_right st = c :: cs -> extends st (eat c cs st) [c].
Proof. intros H. split; simpl; auto. Qed.

Lemma post_one r st c cs :
  nullable r = false -> tiled r = (fun _ => None) ->
  m_right st = c :: cs -> post r st (eat c cs st) [c].
Proof.
  intros _ T H. split; [apply eat_extends, H|].
  split; [discriminate|]. split; [reflexivity|].
  intros i j. rewrite T. discriminate.
Qed.

Lemma post_zero r st :
  (forall i, tiled r i = Some i) -> nullable r = true -> post r st st [].
Proof.
  intros T Z. split; [apply extends_refl|].
  split.
  - rewrite Z. discriminate.
  - split; [reflexivity|]. intros i j. rewrite T. intros [= <-].
    exists []. split; [reflexivity|constructor].
Qed.

(** The repetition, given what one round obeys. *)
Lemma star_sound (m : mstate -> (mstate -> option mstate) -> option mstate)
      (gf : bool) :
  (forall st k res, m st k = Some res ->
     exists st' w, extends st st' w /\
                   (gf = true -> m_caps st' = m_caps st) /\
                   k st' = Some res) ->
  forall fuel st k res, star_loop m fuel st k = Some res ->
     exists st' w, extends st st' w /\
                   (gf = true -> m_caps st' = m_caps st) /\
                   k st' = Some res.
Proof.
  intros Hm. induction fuel as [|fuel IH]; intros st k res H; simpl in H.
  - exists st, []. auto using extends_refl.
  - apply orelse_some in H. destruct H as [H|H].
    + apply Hm in H. destruct H as (st1 & w1 & E1 & C1 & H).
      destruct (_ <? _); [|discriminate].
      apply IH in H. destruct H as (st2 & w2 & E2 & C2 & H).
      exists st2, (w1 ++ w2). split; [eapply extends_trans; eauto|].
      split; [|exact H]. intros G. rewrite C2, C1; auto.
    + exists st, []. auto using extends_refl.
Qed.

Lemma post_weaken r st st' w :
  post r st st' w ->
  extends st st' w /\ (groupfree r = true -> m_caps st' = m_caps st).
Proof. intros (E & _ & G & _). auto. Qed.

Lemma mtch_sound r :
  forall st k res, mtch U r st k = Some res ->
    exists st' w, post r st st' w /\ k st' = Some res.
Proof.
  induction r as [|c| |neg items| | | |a IHa b IHb|a IHa b IHb
                  |a IHa|a IHa|a IHa|i a IHa];
    intros st k res H; cbn [mtch] in H.
  - (* Eps *) exists st, []. split; [apply post_zero; auto|exact H].
  - (* Chr *) apply one_sound in H. destruct H as (x & cs & R & _ & H).
    exists (eat x cs st), [x]. split; [apply post_one; auto|exact H].
  - (* Dot *) apply one_sound in H. destruct H as (x & cs & R & _ & H).
    exists (eat x cs st), [x]. split; [apply post_one; auto|exact H].
  - (* Cls *) apply one_sound in H. destruct H as (x & cs & R & _ & H).
    exists (eat x cs st), [x]. split; [apply post_one; auto|exact H].
  - (* Bol *) exists st, []. split; [apply post_zero; auto|].
    destruct (m_left st) as [|c ?]; [exact H|].
    destruct (N.eqb c 10); [exact H|discriminate].
  - (* Eol *) exists st, []. split; [apply post_zero; auto|].
    destruct (m_right st) as [|c ?]; [exact H|].
    destruct (N.eqb c 10); [exact H|discriminate].
  - (* Wordb *) exists st, []. split; [apply post_zero; auto|].
    destruct (xorb _ _); [exact H|discriminate].
  - (* Cat *)
    apply IHa in H. destruct H as (st1 & w1 & P1 & H).
    apply IHb in H. destruct H as (st2 & w2 & P2 & H).
    exists st2, (w1 ++ w2). split; [|exact H].
    destruct P1 as (E1 & N1 & G1 & T1), P2 as (E2 & N2 & G2 & T2).
    split; [eapply extends_trans; eauto|]. split; [|split].
    + simpl. intros N. apply andb_false_iff in N. intros A.
      apply app_eq_nil in A.
      destruct A as [A1 A2], N as [N|N];
        [exact (N1 N A1)|exact (N2 N A2)].
    + simpl. intros G. apply andb_true_iff in G. destruct G.
      rewrite G2, G1; auto.
    + simpl. intros i j T. destruct (tiled a i) as [l|] eqn:Ta;
        [|discriminate].
      destruct (T1 _ _ Ta) as (cs1 & C1 & X1).
      destruct (T2 _ _ T) as (cs2 & C2 & X2).
      exists (cs2 ++ cs1). split.
      * rewrite C2, C1, app_assoc. reflexivity.
      * eapply tiles_app; eauto.
        rewrite <- (extends_length _ _ _ E1). exact X2.
  - (* Alt *)
    apply orelse_some in H. destruct H as [H|H].
    + apply IHa in H. destruct H as (st1 & w1 & (E & N & G & _) & H).
      exists st1, w1. split; [|exact H]. split; [exact E|].
      simpl. split; [|split].
      * intros X. apply orb_false_iff in X. tauto.
      * intros X. apply andb_true_iff in X. tauto.
      * discriminate.
    + apply IHb in H. destruct H as (st1 & w1 & (E & N & G & _) & H).
      exists st1, w1. split; [|exact H]. split; [exact E|].
      simpl. split; [|split].
      * intros X. apply orb_false_iff in X. tauto.
      * intros X. apply andb_true_iff in X. tauto.
      * discriminate.
  - (* Star *)
    apply (star_sound (mtch U a) (groupfree a)) in H.
    + destruct H as (st1 & w1 & E & G & H). exists st1, w1.
      split; [|exact H]. split; [exact E|]. simpl.
      split; [discriminate|]. split; [exact G|discriminate].
    + intros s k' r' X. apply IHa in X.
      destruct X as (s1 & w1 & (E & _ & G & _) & X). eauto.
  - (* Plus *)
    apply IHa in H. destruct H as (st1 & w1 & (E1 & N1 & G1 & _) & H).
    apply (star_sound (mtch U a) (groupfree a)) in H.
    + destruct H as (st2 & w2 & E2 & G2 & H). exists st2, (w1 ++ w2).
      split; [|exact H]. split; [eapply extends_trans; eauto|]. simpl.
      split; [|split].
      * intros N A. apply app_eq_nil in A. destruct A as [A1 _].
        exact (N1 N A1).
      * intros G. rewrite G2, G1; auto.
      * discriminate.
    + intros s k' r' X. apply IHa in X.
      destruct X as (s1 & w & (E & _ & G & _) & X). eauto.
  - (* Opt *)
    apply orelse_some in H. destruct H as [H|H].
    + apply IHa in H. destruct H as (st1 & w1 & (E & N & G & _) & H).
      exists st1, w1. split; [|exact H]. split; [exact E|]. simpl.
      split; [discriminate|]. split; [exact G|discriminate].
    + exists st, []. split; [|exact H]. split; [apply extends_refl|].
      simpl. split; [discriminate|]. split; [reflexivity|discriminate].
  - (* Grp *)
    apply IHa in H. destruct H as (st1 & w1 & (E & N & G & _) & H).
    exists (close i st st1), w1. split; [|exact H].
    split; [exact E|]. simpl. split; [exact N|].
    split; [discriminate|].
    intros i0 j T. destruct (Nat.eqb i i0) eqn:Ei; [|discriminate].
    destruct (groupfree a) eqn:Ga; [|discriminate].
    simpl in T. injection T as <-. apply Nat.eqb_eq in Ei. subst i0.
    exists [(i, (length (m_left st), w1))]. split.
    * rewrite (matched_extends _ _ _ E), G; auto.
    * apply tiles_one.
Qed.

(** A match anchored at the cursor, seen from outside. *)
Corollary rematch_sound r l rt m :
  rematch U r l rt = Some m ->
  exists w, m_left m = rev w ++ l /\ rt = w ++ m_right m /\
            (nullable r = false -> w <> []) /\
            (forall j, tiled r 1 = Some j ->
                       tiles (length l) 1 j (m_caps m) w).
Proof.
  unfold rematch. intros H. apply mtch_sound in H.
  destruct H as (st' & w & ((L & R) & N & _ & T) & [= ->]).
  simpl in *. exists w. repeat split; auto.
  intros j Tj. destruct (T _ _ Tj) as (cs & C & X).
  rewrite app_nil_r in C. subst cs. exact X.
Qed.
End Sound.

End ReFacts.

(** * Properties of the driver *)

Module LexerFacts.

Import Re Morloc Lexer ReFacts.

Lemma texts_app l1 l2 : texts (l1 ++ l2) = texts l1 ++ texts l2.
Proof. unfold texts. rewrite map_app, concat_app. reflexivity. Qed.

Lemma chained_app a b c l1 l2 :
  chained a l1 b -> chained b l2 c -> chained a (l1 ++ l2) c.
Proof.
  revert a. induction l1 as [|s l1 IH]; simpl; intros a H1 H2.
  - subst. exact H2.
  - destruct H1 as [E H1]. split; [exact E|]. eapply IH; eauto.
Qed.

Lemma chained_end a l b : chained a l b -> b = a + length (texts l).
Proof.
  revert a. induction l as [|s l IH]; simpl; intros a H.
  - subst. lia.
  - destruct H as [E H]. apply IH in H. unfold texts in *. simpl.
    rewrite length_app. unfold sp_end in H. lia.
Qed.

(** *** Spans of a [bygroups] rule *)

Lemma group_spans_app caps i ts1 ts2 :
  group_spans caps i (ts1 ++ ts2) =
  group_spans caps i ts1 ++ group_spans caps (i + length ts1) ts2.
Proof.
  revert i. induction ts1 as [|t ts1 IH]; simpl; intros i.
  - rewrite Nat.add_0_r. reflexivity.
  - rewrite IH, <- app_assoc.
    replace (i + S (length ts1)) with (S i + length ts1) by lia.
    reflexivity.
Qed.

Lemma group_spans_cons caps j c i ts :
  i + length ts <= j ->
  group_spans ((j, c) :: caps) i ts = group_spans caps i ts.
Proof.
  revert i. induction ts as [|t ts IH]; simpl; intros i H; [reflexivity|].
  rewrite IH by lia. unfold group. simpl.
  destruct (Nat.eqb_spec j i); [lia|]. reflexivity.
Qed.

Lemma last_split {A} (l : list A) n :
  length l = S n -> exists l' x, l = l' ++ [x] /\ length l' = n.
Proof.
  intros H. destruct (exists_last (l := l)) as (l' & x & E).
  - intros ->. discriminate.
  - exists l', x. split; [exact E|]. subst l.
    rewrite length_app in H. simpl in H. lia.
Qed.

Lemma group_spans_tiles p i j cs w :
  tiles p i j cs w ->
  forall ts, length ts = j - i ->
    texts (group_spans cs i ts) = w /\
    chained p (group_spans cs i ts) (p + length w).
Proof.
  induction 1 as [p i|p i j cs w u H IH]; intros ts L.
  - rewrite Nat.sub_diag in L. destruct ts; [|discriminate].
    simpl. split; [reflexivity|lia].
  - pose proof (tiles_le _ _ _ _ _ H) as Le.
    destruct (last_split ts (j - i)) as (ts' & t & -> & L'); [lia|].
    rewrite group_spans_app, group_spans_cons by lia.
    destruct (IH ts' L') as [T C].
    replace (i + length ts') with j by lia.
    simpl. unfold group. simpl. rewrite Nat.eqb_refl. simpl.
    split.
    + rewrite texts_app, T. unfold texts. simpl. rewrite app_nil_r.
      reflexivity.
    + eapply chained_app; [exact C|]. simpl. split; [reflexivity|].
      unfold sp_end. simpl. rewrite length_app. lia.
Qed.

Section Driver.
Context (U : unitab).
Context (table : St.name -> list rule).
Hypothesis OK : table_ok table.

Lemma first_match_some rules st r m :
  first_match U rules st = Some (r, m) ->
  In r rules /\ rematch U (pat r) (left st) (right st) = Some m.
Proof.
  induction rules as [|r0 rules IH]; simpl; [discriminate|].
  destruct (rematch U (pat r0) (left st) (right st)) as [m0|] eqn:E.
  - intros [= <- <-]. auto.
  - intros H. apply IH in H. tauto.
Qed.

(** What a rule of a well-formed table emits when its pattern matches. *)
Lemma emit_spec r st m :
  rule_ok r = true ->
  rematch U (pat r) (left st) (right st) = Some m ->
  exists w, w <> [] /\ m_left m = rev w ++ left st /\
            right st = w ++ m_right m /\
            texts (emit (act r) st m) = w /\
            chained (cursor st) (emit (act r) st m)
                    (cursor st + length w).
Proof.
  intros Hr Hm. apply rematch_sound in Hm.
  destruct Hm as (w & L & R & N & T). exists w.
  unfold rule_ok in Hr. apply andb_true_iff in Hr. destruct Hr as [Hn Ha].
  apply negb_true_iff in Hn.
  split; [auto|]. split; [exact L|]. split; [exact R|].
  unfold emit. destruct (act r) as [t|ts].
  - rewrite (matched_app _ _ _ L). unfold texts. simpl.
    rewrite app_nil_r. split; [reflexivity|].
    split; [reflexivity|]. unfold sp_end. reflexivity.
  - destruct (tiled (pat r) 1) as [j|] eqn:Tj; [|discriminate].
    apply Nat.eqb_eq in Ha. subst j.
    apply (group_spans_tiles _ _ _ _ _ (T _ eq_refl)).
    simpl. lia.
Qed.

(** One iteration on a non-empty rest: a non-empty [w] is consumed and
    the spans emitted spell [w], end to end from the cursor. *)
Lemma step_spec st :
  right st <> [] ->
  exists w, w <> [] /\
            left (snd (step U table st)) = rev w ++ left st /\
            right st = w ++ right (snd (step U table st)) /\
            texts (fst (step U table st)) = w /\
            chained (cursor st) (fst (step U table st))
                    (cursor (snd (step U table st))).
Proof.
  intros Hne. unfold step.
  destruct (first_match U (table (top (stack st))) st) as [[r m]|] eqn:E.
  - apply first_match_some in E. destruct E as [Hin Hm].
    pose proof (OK (top (stack st))) as Hall.
    rewrite forallb_forall in Hall.
    destruct (emit_spec r st m (Hall _ Hin) Hm)
      as (w & Hw & L & R & T & C).
    exists w. simpl. repeat split; auto.
    unfold cursor at 2. simpl. rewrite L, length_app, length_rev.
    unfold cursor in C. rewrite Nat.add_comm. exact C.
  - destruct (right st) as [|c cs]; [contradiction|].
    exists [c]. simpl. split; [discriminate|]. repeat split.
    unfold sp_end, skip. simpl. unfold cursor. simpl. lia.
Qed.

Lemma step_progress st :
  right st <> [] ->
  cursor st < cursor (snd (step U table st)) /\
  length (right (snd (step U table st))) < length (right st).
Proof.
  intros H. destruct (step_spec st H) as (w & Hw & L & R & _).
  unfold cursor. rewrite L, R, !length_app, length_rev.
  destruct w; [contradiction|]. simpl. lia.
Qed.

(** With one unit of fuel per character the loop reaches the end of the
    input, and its spans cover the rest of the input end to end. *)
Lemma run_spec fuel :
  forall st, length (right st) <= fuel ->
    exists l, run U table fuel st = Some l /\
              texts l = right st /\
              chained (cursor st) l (cursor st + length (right st)).
Proof.
  induction fuel as [|fuel IH]; intros st Hf.
  - destruct (right st) eqn:E; [|simpl in Hf; lia].
    exists []. simpl. rewrite E. simpl. auto.
  - destruct (right st) as [|c cs] eqn:E.
    + exists []. simpl. rewrite E. simpl. auto.
    + assert (Hne : right st <> []) by (rewrite E; discriminate).
      destruct (step_spec st Hne) as (w & Hw & L & R & T & C).
      destruct (step_progress st Hne) as [_ Hlt].
      destruct (IH (snd (step U table st))) as (l & Hl & Tl & Cl).
      { rewrite E in Hlt. simpl in Hlt. simpl in Hf. lia. }
      exists (fst (step U table st) ++ l).
      simpl. rewrite E, Hl. simpl. split; [reflexivity|].
      split.
      * rewrite texts_app, T, Tl, <- E. symmetry. exact R.
      * eapply chained_app; [exact C|].
        replace (cursor st + S (length cs))
          with (cursor (snd (step U table st))
                + length (right (snd (step U table st)))); [exact Cl|].
        change (S (length cs)) with (length (c :: cs)).
        rewrite <- E. unfold cursor. rewrite L, length_app, length_rev.
        pose proof (f_equal (@length _) R) as X.
        rewrite length_app in X. lia.
Qed.
End Driver.

Lemma tokens_ok : table_ok tokens.
Proof. intros []; reflexivity. Qed.

End LexerFacts.


(** * The tokenizer of [MorlocLexer] *)

Import Re Morloc Lexer Sample ReFacts LexerFacts.

Section Tokenizer.
Context (U : unitab).

(** No rule of the table matches at the end of the input. *)
Lemma first_match_end st :
  right st = [] -> first_match U (tokens (top (stack st))) st = None.
Proof.
  intros E.
  destruct (first_match U (tokens (top (stack st))) st) as [[r m]|] eqn:F;
    [|reflexivity].
  apply first_match_some in F. destruct F as [Hin Hm].
  pose proof (tokens_ok (top (stack st))) as Hall.
  rewrite forallb_forall in Hall.
  destruct (emit_spec U r st m (Hall _ Hin) Hm) as (w & Hw & _ & R & _).
  rewrite E in R. destruct w; [contradiction|discriminate].
Qed.

Lemma step_end st : right st = [] -> step U tokens st = ([], st).
Proof.
  intros E. unfold step. rewrite (first_match_end st E), E. reflexivity.
Qed.

Lemma steps_end n :
  forall st, length (right st) <= n -> right (steps U tokens n st) = [].
Proof.
  induction n as [|n IH]; intros st H; simpl.
  - destruct (right st); [reflexivity|simpl in H; lia].
  - apply IH. destruct (right st) as [|c cs] eqn:E.
    + rewrite (step_end st E). simpl. rewrite E. simpl. lia.
    + assert (Hne : right st <> []) by (rewrite E; discriminate).
      destruct (step_progress U tokens tokens_ok st Hne) as [_ Hlt].
      rewrite E in Hlt. simpl in *. lia.
Qed.

Lemma group_spans_types caps ts :
  forall i s, In s (group_spans caps i ts) -> In (sp_type s) ts.
Proof.
  induction ts as [|t ts IH]; simpl; intros i s H; [exact H|].
  apply in_app_or in H. destruct H as [H|H].
  - destruct (group caps i) as [[p w]|]; [|contradiction].
    destruct H as [<-|[]]. left. reflexivity.
  - right. eapply IH, H.
Qed.

Lemma emit_types a st m s :
  In s (emit a st m) -> In (sp_type s) (types a).
Proof.
  destruct a as [t|ts]; simpl.
  - intros [<-|[]]. left. reflexivity.
  - apply group_spans_types.
Qed.

Lemma no_error_rule s :
  forallb (fun r => negb (emits_error r)) (tokens s) = true.
Proof. destruct s; reflexivity. Qed.

Lemma eqb_error t : Token.eqb Token.Error t = true <-> t = Token.Error.
Proof. destruct t; simpl; split; congruence. Qed.
End Tokenizer.

(** C1.  Coverage: for every input, [tokenize] returns a list of spans whose
    texts, put together in emission order, are the input; the spans lie end
    to end (each starts where the one before it ended, none overlaps), the
    first starts at offset 0 and the last ends at the end of the input. *)
Theorem tokenize_covers (U : unitab) (txt : text) :
  exists l, tokenize U txt = Some l /\
            texts l = txt /\
            chained 0 l (length txt).
Proof.
  destruct (run_spec U tokens tokens_ok (length txt) (init txt))
    as (l & Hl & T & C); [simpl; lia|].
  exists l. split; [exact Hl|]. split; [exact T|exact C].
Qed.

(** C4.  Progress: every rule of the table that can be taken matches at
    least one character, so every iteration of the driver loop on an
    unfinished input moves the cursor strictly forward; the tokenization of
    an input ends within [length input] iterations. *)
Theorem cursor_advances (U : unitab) (txt : text) :
  (exists l, run U tokens (length txt) (init txt) = Some l) /\
  right (steps U tokens (length txt) (init txt)) = [] /\
  forall st, right st <> [] ->
    cursor st < cursor (snd (step U tokens st)) /\
    forall r m, first_match U (tokens (top (stack st))) st = Some (r, m) ->
                cursor st < length (m_left m).
Proof.
  split; [|split].
  - destruct (run_spec U tokens tokens_ok (length txt) (init txt))
      as (l & Hl & _); [simpl; lia|].
    exists l. exact Hl.
  - apply steps_end. simpl. lia.
  - intros st Hne. split.
    + apply (step_progress U tokens tokens_ok st Hne).
    + intros r m F. apply first_match_some in F. destruct F as [Hin Hm].
      pose proof (tokens_ok (top (stack st))) as Hall.
      rewrite forallb_forall in Hall.
      destruct (emit_spec U r st m (Hall _ Hin) Hm) as (w & Hw & L & _).
      unfold cursor. rewrite L, length_app, length_rev.
      destruct w; [contradiction|simpl; lia].
Qed.

Lemma cursor_advances_witness :
  right (init wherever) <> [] /\
  cursor (init wherever)
  < cursor (snd (step ascii_only tokens (init wherever))).
Proof.
  split; [discriminate|].
  apply (proj2 (proj2 (cursor_advances ascii_only wherever))).
  discriminate.
Defined.

Section Reached.
Context (U : unitab).

(** The iterations move the cursor and leave the text alone. *)
Lemma step_text st :
  rev (left (snd (step U tokens st))) ++ right (snd (step U tokens st))
  = rev (left st) ++ right st.
Proof.
  destruct (right st) as [|c cs] eqn:E.
  - rewrite (step_end U st E). simpl. rewrite E. reflexivity.
  - assert (Hne : right st <> []) by (rewrite E; discriminate).
    destruct (step_spec U tokens tokens_ok st Hne) as (w & _ & L & R & _).
    rewrite L, rev_app_distr, rev_involutive, <- app_assoc, <- R, E.
    reflexivity.
Qed.

Lemma steps_text n :
  forall st,
    rev (left (steps U tokens n st)) ++ right (steps U tokens n st)
    = rev (left st) ++ right st.
Proof.
  induction n as [|n IH]; intros st; [reflexivity|].
  cbn [steps]. rewrite IH. apply step_text.
Qed.

Lemma steps_stuck n st : right st = [] -> steps U tokens n st = st.
Proof.
  intros E. induction n as [|n IH]; [reflexivity|].
  cbn [steps]. rewrite (step_end U st E). exact IH.
Qed.

(** What an iteration emits on the way is part of the result of the run. *)
Lemma run_contains n :
  forall fuel st l s,
    run U tokens fuel st = Some l ->
    right (steps U tokens n st) <> [] ->
    In s (fst (step U tokens (steps U tokens n st))) ->
    In s l.
Proof.
  induction n as [|n IH]; intros fuel st l s Hrun Hne Hin.
  - cbn [steps] in *. destruct (right st) as [|c cs] eqn:E;
      [contradiction|].
    destruct fuel as [|fuel]; simpl in Hrun; rewrite E in Hrun;
      [discriminate|].
    destruct (run U tokens fuel (snd (step U tokens st))) as [l'|];
      [|discriminate].
    simpl in Hrun. injection Hrun as <-. apply in_or_app. left. exact Hin.
  - destruct (right st) as [|c cs] eqn:E.
    + rewrite (steps_stuck (S n) st E) in Hne. contradiction.
    + cbn [steps] in Hne, Hin.
      destruct fuel as [|fuel]; simpl in Hrun; rewrite E in Hrun;
        [discriminate|].
      destruct (run U tokens fuel (snd (step U tokens st))) as [l'|] eqn:Hr;
        [|discriminate].
      simpl in Hrun. injection Hrun as <-. apply in_or_app. right.
      exact (IH fuel _ l' s Hr Hne Hin).
Qed.
End Reached.

(** C2.  When no rule of the active state matches at the cursor, the
    iteration emits exactly one span: it starts at the cursor, its type is
    [Error] and its text is the one character at the cursor; the cursor
    moves by one and the stack stays as it is.  The scan goes on from there
    to the end of the input.  When the state is one that the tokenizer
    reaches on an input, the character is the one at that offset of the
    input and the span is among the spans of the tokenization.  An [Error]
    span never comes from a rule: the fallback is its only source. *)
Theorem error_recovery (U : unitab) (st : dstate) (c : char) (cs : text) :
  right st = c :: cs ->
  first_match U (tokens (top (stack st))) st = None ->
  step U tokens st
  = ([{| sp_start := length (left st); sp_type := Token.Error;
         sp_text := [c] |}],
     {| left := c :: left st; right := cs; stack := stack st |}) /\
  (exists l,
     run U tokens (length cs)
         {| left := c :: left st; right := cs; stack := stack st |}
     = Some l /\
     run U tokens (length (c :: cs)) st
     = Some ({| sp_start := length (left st); sp_type := Token.Error;
                sp_text := [c] |} :: l)) /\
  (forall txt n,
     steps U tokens n (init txt) = st ->
     nth_error txt (length (left st)) = Some c /\
     exists l, tokenize U txt = Some l /\
               In {| sp_start := length (left st); sp_type := Token.Error;
                     sp_text := [c] |} l) /\
  (forall st' s, In s (fst (step U tokens st')) ->
                 sp_type s = Token.Error ->
                 first_match U (tokens (top (stack st'))) st' = None).
Proof.
  intros R F.
  assert (S1 : step U tokens st
               = ([{| sp_start := length (left st); sp_type := Token.Error;
                      sp_text := [c] |}],
                  {| left := c :: left st; right := cs;
                     stack := stack st |})).
  { unfold step. rewrite F, R. reflexivity. }
  split; [exact S1|]. split; [|split].
  - destruct (run_spec U tokens tokens_ok (length cs)
                {| left := c :: left st; right := cs; stack := stack st |})
      as (l & Hl & _); [simpl; lia|].
    exists l. split; [exact Hl|]. simpl. rewrite R, S1. simpl.
    rewrite Hl. reflexivity.
  - intros txt n Hst. split.
    + pose proof (steps_text U n (init txt)) as T. rewrite Hst, R in T.
      simpl in T. rewrite <- T.
      rewrite nth_error_app2 by (rewrite length_rev; lia).
      rewrite length_rev, Nat.sub_diag. reflexivity.
    + destruct (run_spec U tokens tokens_ok (length txt) (init txt))
        as (l & Hl & _); [simpl; lia|].
      exists l. split; [exact Hl|].
      apply (run_contains U n (length txt) (init txt) l _ Hl).
      * rewrite Hst, R. discriminate.
      * rewrite Hst, S1. left. reflexivity.
  - intros st' s Hin Ht. unfold step in Hin.
    destruct (first_match U (tokens (top (stack st'))) st')
      as [[r m]|] eqn:F'; [|reflexivity].
    exfalso. simpl in Hin. apply emit_types in Hin.
    apply first_match_some in F'. destruct F' as [Hr _].
    pose proof (no_error_rule (top (stack st'))) as Hall.
    rewrite forallb_forall in Hall. specialize (Hall _ Hr).
    apply negb_true_iff in Hall. unfold emits_error in Hall.
    assert (X : existsb (Token.eqb Token.Error) (types (act r)) = true).
    { apply existsb_exists. exists (sp_type s). split; [exact Hin|].
      apply eqb_error. exact Ht. }
    congruence.
Qed.

Lemma error_recovery_witness :
  right (steps ascii_only tokens 2 (init (codes "x #y")))
  = 35%N :: codes "y" /\
  step ascii_only tokens (steps ascii_only tokens 2 (init (codes "x #y")))
  = ([{| sp_start := 2; sp_type := Token.Error; sp_text := [35%N] |}],
     {| left := rev (codes "x #"); right := codes "y";
        stack := [St.root] |}) /\
  nth_error (codes "x #y") 2 = Some 35%N /\
  exists l, tokenize ascii_only (codes "x #y") = Some l /\
            In {| sp_start := 2; sp_type := Token.Error;
                  sp_text := [35%N] |} l.
Proof.
  destruct (error_recovery ascii_only
              (steps ascii_only tokens 2 (init (codes "x #y")))
              35%N (codes "y") eq_refl eq_refl)
    as (S1 & _ & Hreach & _).
  destruct (Hreach (codes "x #y") 2 eq_refl) as (Hn & l & Hl & Hin).
  split; [reflexivity|]. split; [exact S1|]. split; [exact Hn|].
  exists l. split; [exact Hl|exact Hin].
Defined.

(** First match, not longest match: the rules before the first matching
    one decide nothing, and those after it are not looked at. *)
Lemma first_match_app (U : unitab) (before : list rule) (r : rule)
      (rest : list rule) (st : dstate) (m : mstate) :
  (forall r', In r' before ->
              rematch U (pat r') (left st) (right st) = None) ->
  rematch U (pat r) (left st) (right st) = Some m ->
  first_match U (before ++ r :: rest) st = Some (r, m).
Proof.
  intros Hb Hr. induction before as [|b before IH]; simpl.
  - rewrite Hr. reflexivity.
  - rewrite (Hb b (or_introl eq_refl)). apply IH.
    intros r' Hin. apply Hb. right. exact Hin.
Qed.

(** C3.  Rule precedence: when the rule [r] of the active state matches at
    the cursor and no rule declared before it does, the iteration takes [r]
    and emits the spans of [r], with the token type of [r], whatever the
    rules declared after [r] would match.  In the state [root] on
    [wherever] both the bare [where] rule (5 characters) and the lowercase
    identifier rule (all 8 characters) match; the [where] rule, declared
    first, is taken. *)
Theorem first_rule_wins (U : unitab) :
  (forall st before r rest m,
     tokens (top (stack st)) = before ++ r :: rest ->
     (forall r', In r' before ->
                 rematch U (pat r') (left st) (right st) = None) ->
     rematch U (pat r) (left st) (right st) = Some m ->
     step U tokens st = (emit (act r) st m, after r st m)) /\
  option_map (fun m => length (m_left m))
             (rematch U (lit "where") [] wherever) = Some 5 /\
  option_map (fun m => length (m_left m))
             (rematch U (Cat (Cls false [Ll]) (Star wq)) [] wherever)
  = Some 8 /\
  In {| pat := Cat (Cls false [Ll]) (Star wq); act := Tok Token.Name;
        trans := [] |} (tl (tokens St.root)) /\
  fst (step U tokens (init wherever))
  = [span_at 0 Token.Keyword_Reserved (codes "where")] /\
  tokenize U wherever
  = Some [span_at 0 Token.Keyword_Reserved (codes "where");
          span_at 5 Token.Name (codes "ver")].
Proof.
  split.
  - intros st before r rest m Ht Hb Hr. unfold step.
    rewrite Ht, (first_match_app U before r rest st m Hb Hr). reflexivity.
  - repeat split; try (vm_compute; reflexivity).
    simpl. do 11 right. left. reflexivity.
Qed.

Lemma first_rule_wins_witness :
  step ascii_only tokens (init wherever)
  = ([span_at 0 Token.Keyword_Reserved (codes "where")],
     {| left := rev (codes "where"); right := codes "ver";
        stack := [St.root] |}).
Proof.
  refine (proj1 (first_rule_wins ascii_only) (init wherever) []
                {| pat := lit "where"; act := Tok Token.Keyword_Reserved;
                   trans := [] |}
                (tl (tokens St.root))
                {| m_left := rev (codes "where"); m_right := codes "ver";
                   m_caps := [] |} _ _ _).
  - reflexivity.
  - intros r' [].
  - reflexivity.
Defined.

(** C5.  Nested block comments: on [{- outer {- inner -} still outer -}]
    every span is a [Comment] span and the spans cover the whole text, the
    inner delimiters included.  The inner opener pushes the state [comment]
    a second time, the inner closer pops it once, so the outer comment goes
    on until the last closer. *)
Theorem nested_comment_spans (U : unitab) :
  exists l, tokenize U nested_comment = Some l /\
            all_comment l = true /\
            texts l = nested_comment /\
            chained 0 l (length nested_comment) /\
            stack (steps U tokens 8 (init nested_comment))
            = [St.comment; St.root] /\
            stack (steps U tokens 9 (init nested_comment))
            = [St.comment; St.comment; St.root] /\
            right (steps U tokens 9 (init nested_comment))
            = codes " inner -} still outer -}" /\
            stack (steps U tokens 17 (init nested_comment))
            = [St.comment; St.root] /\
            right (steps U tokens 17 (init nested_comment))
            = codes " still outer -}" /\
            stack (steps U tokens 30 (init nested_comment))
            = [St.comment; St.root] /\
            stack (steps U tokens 31 (init nested_comment)) = [St.root] /\
            right (steps U tokens 31 (init nested_comment)) = [].
Proof.
  destruct (tokenize U nested_comment) as [l|] eqn:E;
    [|vm_compute in E; discriminate].
  exists l. split; [reflexivity|].
  vm_compute in E. injection E as <-.
  repeat split; vm_compute; reflexivity.
Qed.

(** C7, as the spec states it, fails: [module Foo.Bar] does not come out as
    three spans. *)
Lemma module_upper_not_three :
  ~ exists a b c, tokenize ascii_only module_upper = Some [a; b; c].
Proof.
  intros (a & b & c & H). vm_compute in H. discriminate.
Qed.

(** C7, amended.  The name rule of the state [module] starts with a
    lowercase letter.  On [module Foo.Bar] there are four spans: the keyword
    [module], the blank, an [Error] span for [F], and a [Name] span for
    [oo.Bar].  On [module foo.bar] there are exactly three: the keyword
    [module], the blank and the [Name] span [foo.bar]. *)
Theorem module_name_spans (U : unitab) :
  tokenize U module_upper
  = Some [span_at 0 Token.Keyword_Reserved (codes "module");
          span_at 6 Token.Whitespace (codes " ");
          span_at 7 Token.Error (codes "F");
          span_at 8 Token.Name (codes "oo.Bar")] /\
  tokenize U module_lower
  = Some [span_at 0 Token.Keyword_Reserved (codes "module");
          span_at 6 Token.Whitespace (codes " ");
          span_at 7 Token.Name (codes "foo.bar")].
Proof. split; vm_compute; reflexivity. Qed.

(** C8.  What the table does on [source R (Qf Q as g)], [Q] the double
    quote: up to the string the spans are those of the claim; then the
    plain string rule of [sourcelist] takes the string alone, and nothing in
    [sourcelist] matches [as] or [g], which come out as [Error] spans, one
    per character.  Were the second target of the [source] rule dropped,
    the rest would be read in [root]: the alias rule is not reached either,
    and [as] comes out as a [Name] span.  Neither way is there a [Keyword]
    span for [as]. *)
Theorem source_alias_spans (U : unitab) :
  tokenize U source_alias
  = Some [span_at 0 Token.Keyword_Reserved (codes "source");
          span_at 6 Token.Whitespace (codes " ");
          span_at 7 Token.Name (codes "R");
          span_at 8 Token.Whitespace (codes " ");
          span_at 9 Token.Text (codes "(");
          span_at 10 Token.String (dquote :: codes "f" ++ [dquote]);
          span_at 13 Token.Whitespace (codes " ");
          span_at 14 Token.Error (codes "a");
          span_at 15 Token.Error (codes "s");
          span_at 16 Token.Whitespace (codes " ");
          span_at 17 Token.Error (codes "g");
          span_at 18 Token.Text (codes ")")] /\
  stack (steps U tokens 1 (init source_alias))
  = [St.sourcelist; St.root; St.root] /\
  tokenize_with U tokens_first_target source_alias
  = Some [span_at 0 Token.Keyword_Reserved (codes "source");
          span_at 6 Token.Whitespace (codes " ");
          span_at 7 Token.Name (codes "R");
          span_at 8 Token.Whitespace (codes " ");
          span_at 9 Token.Text (codes "(");
          span_at 10 Token.String [dquote];
          span_at 11 Token.String (codes "f");
          span_at 12 Token.String [dquote];
          span_at 13 Token.Whitespace (codes " ");
          span_at 14 Token.Name (codes "as");
          span_at 16 Token.Whitespace (codes " ");
          span_at 17 Token.Name (codes "g");
          span_at 18 Token.Punctuation (codes ")")].
Proof. repeat split; vm_compute; reflexivity. Qed.

(** C6, as the spec states it, fails: after the backslash of [Q\zQ] the
    state [escape] is on top, none of its rules matches [z], and the
    iteration leaves [escape] on top. *)
Lemma escape_stays_on_z :
  let st := steps ascii_only tokens 2 (init bad_escape) in
  stack st = [St.escape; St.string; St.root] /\
  right st = codes "z" ++ [dquote] /\
  first_match ascii_only (tokens St.escape) st = None /\
  fst (step ascii_only tokens st) = [span_at 2 Token.Error (codes "z")] /\
  stack (snd (step ascii_only tokens st))
  = [St.escape; St.string; St.root] /\
  ~ (forall st', top (stack st') = St.escape -> right st' <> [] ->
       exists r m,
         first_match ascii_only (tokens St.escape) st' = Some (r, m) /\
         stack (snd (step ascii_only tokens st')) = tl (stack st')).
Proof.
  repeat split; try (vm_compute; reflexivity).
  intros H.
  destruct (H (steps ascii_only tokens 2 (init bad_escape)))
    as (r & m & F & _).
  - reflexivity.
  - vm_compute. discriminate.
  - vm_compute in F. discriminate.
Qed.

Lemma escape_rules_pop r : In r (tokens St.escape) -> trans r = [pop].
Proof.
  simpl. intros H.
  repeat (destruct H as [<-|H]; [reflexivity|]). destruct H.
Qed.

(** C6, amended.  With the state [escape] on top of the state [s]: when one
    of the rules of [escape] matches at the cursor, the iteration takes the
    first that does and pops [escape], leaving [s] on top; when none does,
    the iteration emits the one-character [Error] span and [escape] stays
    on top. *)
Theorem escape_step (U : unitab) (st : dstate) (s : St.name)
        (below : list St.name) :
  stack st = St.escape :: s :: below ->
  (forall r m, first_match U (tokens St.escape) st = Some (r, m) ->
     In r (tokens St.escape) /\
     step U tokens st = (emit (act r) st m, after r st m) /\
     stack (after r st m) = s :: below) /\
  (forall c cs, right st = c :: cs ->
     first_match U (tokens St.escape) st = None ->
     step U tokens st = ([error_span st c], skip c cs st) /\
     stack (skip c cs st) = St.escape :: s :: below).
Proof.
  intros Hs. split.
  - intros r m F. pose proof (first_match_some U _ _ _ _ F) as [Hin _].
    split; [exact Hin|]. split.
    + unfold step. rewrite Hs. simpl top. rewrite F. reflexivity.
    + unfold after. simpl. rewrite (escape_rules_pop r Hin), Hs.
      reflexivity.
  - intros c cs R F. split.
    + unfold step. rewrite Hs. simpl top. rewrite F, R. reflexivity.
    + exact Hs.
Qed.

Lemma escape_step_witness :
  let st := steps ascii_only tokens 2 (init good_escape) in
  stack st = [St.escape; St.string; St.root] /\
  stack (snd (step ascii_only tokens st)) = [St.string; St.root].
Proof.
  split; [reflexivity|].
  pose proof (escape_step ascii_only
                (steps ascii_only tokens 2 (init good_escape))
                St.string [St.root] eq_refl) as [H _].
  destruct (first_match ascii_only (tokens St.escape)
              (steps ascii_only tokens 2 (init good_escape)))
    as [[r m]|] eqn:F; [|vm_compute in F; discriminate].
  destruct (H r m eq_refl) as (_ & S1 & S2).
  rewrite S1. exact S2.
Defined.

(** ** The alias rule of [sourcelist] *)

Section Monotone.
Context (U : unitab).

Lemma orelse_ok a b : orelse a b <> None <-> a <> None \/ b <> None.
Proof.
  destruct a as [x|]; simpl.
  - split; [left|]; discriminate.
  - tauto.
Qed.

Lemma one_mono p st (k k' : mstate -> option mstate) :
  (forall s, k s <> None -> k' s <> None) ->
  one p st k <> None -> one p st k' <> None.
Proof.
  unfold one. intros H. destruct (m_right st) as [|c cs]; [tauto|].
  destruct (p c); [apply H|tauto].
Qed.

Lemma star_mono (m : mstate -> (mstate -> option mstate) -> option mstate) :
  (forall st k k', (forall s, k s <> None -> k' s <> None) ->
                   m st k <> None -> m st k' <> None) ->
  forall fuel st k k', (forall s, k s <> None -> k' s <> None) ->
    star_loop m fuel st k <> None -> star_loop m fuel st k' <> None.
Proof.
  intros Hm. induction fuel as [|fuel IH]; intros st k k' Hk; simpl.
  - apply Hk.
  - rewrite !orelse_ok. intros [H|H]; [left|right; apply Hk, H].
    revert H. apply Hm. intros s.
    destruct (_ <? _); [apply IH, Hk|tauto].
Qed.

(** A match that succeeds with a continuation succeeds with any
    continuation that accepts at least as much. *)
Lemma mtch_mono r :
  forall st k k', (forall s, k s <> None -> k' s <> None) ->
    mtch U r st k <> None -> mtch U r st k' <> None.
Proof.
  induction r as [|c| |neg items| | | |a IHa b IHb|a IHa b IHb
                  |a IHa|a IHa|a IHa|i a IHa];
    intros st k k' Hk; cbn [mtch].
  - apply Hk.
  - apply one_mono, Hk.
  - apply one_mono, Hk.
  - apply one_mono, Hk.
  - destruct (m_left st) as [|c ?]; [apply Hk|].
    destruct (N.eqb c 10); [apply Hk|tauto].
  - destruct (m_right st) as [|c ?]; [apply Hk|].
    destruct (N.eqb c 10); [apply Hk|tauto].
  - destruct (xorb _ _); [apply Hk|tauto].
  - apply IHa. intros s. apply IHb, Hk.
  - rewrite !orelse_ok. intros [H|H]; [left; revert H; apply IHa, Hk|].
    right. revert H. apply IHb, Hk.
  - apply star_mono; [exact IHa|exact Hk].
  - apply IHa. intros s. apply star_mono; [exact IHa|exact Hk].
  - rewrite !orelse_ok. intros [H|H]; [left; revert H; apply IHa, Hk|].
    right. apply Hk, H.
  - apply IHa. intros s. apply Hk.
Qed.

(** Where the alias rule matches, the plain string rule matches too. *)
Lemma alias_needs_string l rt m :
  rematch U (pat alias_rule) l rt = Some m ->
  hd_error rt = Some dquote /\
  exists m', rematch U (pat string_rule) l rt = Some m'.
Proof.
  unfold rematch. intros H. split.
  - unfold alias_rule, quoted in H. cbn [pat seq mtch] in H.
    apply one_sound in H. destruct H as (c & cs & R & E & _).
    simpl in R. subst rt. apply N.eqb_eq in E. subst c. reflexivity.
  - destruct (mtch U (pat string_rule)
                {| m_left := l; m_right := rt; m_caps := [] |} Some)
      as [m'|] eqn:E; [eauto|exfalso].
    revert E. change (mtch U quoted {| m_left := l; m_right := rt;
                                       m_caps := [] |} Some <> None).
    assert (X : mtch U (pat alias_rule)
                  {| m_left := l; m_right := rt; m_caps := [] |} Some
                <> None) by (rewrite H; discriminate).
    unfold alias_rule in X. cbn [pat seq mtch] in X.
    revert X. apply mtch_mono. intros s _. discriminate.
Qed.

Lemma alias_never_first st :
  first_match U sourcelist st = first_match U sourcelist_short st.
Proof.
  unfold sourcelist, sourcelist_short, sourcelist.
  cbn [removelast first_match].
  repeat match goal with
         | |- context [rematch U (pat ?r) (left st) (right st)] =>
             destruct (rematch U (pat r) (left st) (right st)) eqn:?;
             try reflexivity
         end.
  exfalso.
  match goal with
  | H : rematch U (pat alias_rule) _ _ = Some _ |- _ =>
      apply alias_needs_string in H; destruct H as (_ & m' & H)
  end.
  congruence.
Qed.

Lemma step_short st : step U tokens_short st = step U tokens st.
Proof.
  unfold step. destruct (top (stack st)); try reflexivity.
  cbn [tokens tokens_short]. rewrite alias_never_first. reflexivity.
Qed.

Lemma run_short fuel :
  forall st, run U tokens_short fuel st = run U tokens fuel st.
Proof.
  induction fuel as [|fuel IH]; intros st; simpl; [reflexivity|].
  rewrite step_short, IH. reflexivity.
Qed.

Lemma short_no_keyword :
  forallb (fun r => forallb (fun t => negb (Token.is_keyword t))
                            (types (act r))) sourcelist_short = true.
Proof. reflexivity. Qed.

Lemma alias_not_short : ~ In alias_rule sourcelist_short.
Proof.
  unfold sourcelist_short, sourcelist, alias_rule, string_rule.
  cbn [removelast In]. intros H.
  repeat (destruct H as [H|H]; [discriminate H|]). exact H.
Qed.
End Monotone.

(** C10.  The alias rule of [sourcelist] is dead code.  A text on which it
    matches starts with the double quote, and the plain string rule,
    declared before it, matches there too; so the alias rule is never the
    first rule to match, the table without it gives the same spans on every
    input (from every driver state), and an iteration in the state
    [sourcelist] never emits a span of a [Keyword] type. *)
Theorem alias_rule_dead (U : unitab) :
  (forall l rt m, rematch U (pat alias_rule) l rt = Some m ->
     hd_error rt = Some dquote /\
     exists m', rematch U (pat string_rule) l rt = Some m') /\
  (forall st r m, first_match U (tokens St.sourcelist) st = Some (r, m) ->
     In r sourcelist_short /\ r <> alias_rule) /\
  (forall txt, tokenize_with U tokens_short txt = tokenize U txt) /\
  (forall fuel st, run U tokens_short fuel st = run U tokens fuel st) /\
  (forall st s, top (stack st) = St.sourcelist ->
     In s (fst (step U tokens st)) ->
     Token.is_keyword (sp_type s) = false).
Proof.
  split; [apply alias_needs_string|].
  split; [|split; [|split]].
  - intros st r m F. cbn [tokens] in F. rewrite alias_never_first in F.
    apply first_match_some in F. destruct F as [Hin _].
    split; [exact Hin|]. intros ->. exact (alias_not_short Hin).
  - intros txt. apply run_short.
  - intros fuel st. apply run_short.
  - intros st s Ht Hin. unfold step in Hin. rewrite Ht in Hin.
    cbn [tokens] in Hin. rewrite alias_never_first in Hin.
    destruct (first_match U sourcelist_short st) as [[r m]|] eqn:F.
    + apply first_match_some in F. destruct F as [Hr _].
      simpl in Hin. apply emit_types in Hin.
      pose proof short_no_keyword as Hall.
      rewrite forallb_forall in Hall. specialize (Hall _ Hr).
      rewrite forallb_forall in Hall. specialize (Hall _ Hin).
      apply negb_true_iff in Hall. exact Hall.
    + destruct (right st) as [|c cs]; simpl in Hin; [contradiction|].
      destruct Hin as [<-|[]]. reflexivity.
Qed.

Lemma alias_rule_dead_witness :
  exists m m',
    rematch ascii_only (pat alias_rule) []
            (dquote :: codes "f" ++ [dquote] ++ codes " as g)") = Some m /\
    rematch ascii_only (pat string_rule) []
            (dquote :: codes "f" ++ [dquote] ++ codes " as g)") = Some m'.
Proof.
  destruct (rematch ascii_only (pat alias_rule) []
              (dquote :: codes "f" ++ [dquote] ++ codes " as g)"))
    as [m|] eqn:E; [|vm_compute in E; discriminate].
  destruct (proj1 (alias_rule_dead ascii_only) _ _ _ E) as (_ & m' & E').
  exists m, m'. split; [reflexivity|exact E'].
Defined.

(** ** The [export] rule of [root] *)

Section ExportRule.
Context (U : unitab).

(** The state after the cursor moved over [ws]. *)
Lemma star_class_run neg items c rest k res :
  in_class U neg items c = false ->
  forall ws st fuel,
    m_right st = ws ++ c :: rest ->
    Forall (fun x => in_class U neg items x = true) ws ->
    length ws <= fuel ->
    k {| m_left := rev ws ++ m_left st; m_right := c :: rest;
         m_caps := m_caps st |} = Some res ->
    star_loop (mtch U (Cls neg items)) fuel st k = Some res.
Proof.
  intros Hc.
  assert (Hm : forall st k', mtch U (Cls neg items) st k'
                             = one (in_class U neg items) st k')
    by reflexivity.
  generalize dependent (mtch U (Cls neg items)). intros m Hm.
  induction ws as [|x ws IH]; intros st fuel R Hall Hf Hk.
  - simpl in R, Hk.
    assert (E : k st = Some res).
    { rewrite <- Hk. f_equal. destruct st; simpl in *. subst. reflexivity. }
    destruct fuel as [|fuel]; simpl; [exact E|].
    rewrite Hm. unfold one. rewrite R, Hc. simpl. exact E.
  - destruct fuel as [|fuel]; [simpl in Hf; lia|].
    inversion Hall as [|? ? Hx Hws]; subst.
    cbn [star_loop]. rewrite Hm. unfold one. rewrite R. cbn [app].
    rewrite Hx. cbn [eat m_left length].
    replace (length (m_left st) <? S (length (m_left st))) with true
      by (symmetry; apply Nat.ltb_lt; lia).
    rewrite (IH (eat x (ws ++ c :: rest) st) fuel); simpl; auto.
    + simpl in Hf. lia.
    + rewrite <- Hk. f_equal. simpl. rewrite <- app_assoc. reflexivity.
Qed.

Lemma plus_class_run neg items c rest k res ws st :
  in_class U neg items c = false ->
  m_right st = ws ++ c :: rest ->
  ws <> [] ->
  Forall (fun x => in_class U neg items x = true) ws ->
  k {| m_left := rev ws ++ m_left st; m_right := c :: rest;
       m_caps := m_caps st |} = Some res ->
  mtch U (Plus (Cls neg items)) st k = Some res.
Proof.
  intros Hc R Hne Hall Hk. destruct ws as [|x ws]; [contradiction|].
  inversion Hall as [|? ? Hx Hws]; subst.
  cbn [mtch]. unfold one at 1. rewrite R. cbn [app]. rewrite Hx.
  apply (star_class_run neg items c rest k res Hc ws); simpl; auto.
  - rewrite length_app. simpl. lia.
  - rewrite <- Hk. f_equal. simpl. rewrite <- app_assoc. reflexivity.
Qed.

(** An iteration in [root] at the start of a line, on [export], blanks
    and a word character. *)
Lemma export_step (st : dstate) (ws : text) (c : char) (rest : text) :
  top (stack st) = St.root ->
  at_line_start st ->
  right st = codes "export" ++ ws ++ c :: rest ->
  ws <> [] ->
  Forall (fun x => is_space U x = true) ws ->
  is_word U c = true ->
  is_space U c = false ->
  step U tokens st
  = ([span_at (cursor st) Token.Keyword_Reserved (codes "export");
      span_at (6 + cursor st) Token.Whitespace ws;
      span_at (length ws + (6 + cursor st)) Token.Name [c]],
     {| left := c :: rev ws ++ rev (codes "export") ++ left st;
        right := rest; stack := stack st |}).
Proof.
  intros Ht Hl R Hne Hws Hw Hs.
  destruct st as [l r stk]. simpl in *. subst r.
  unfold step. cbn [stack left right]. rewrite Ht.
  assert (Hc : in_class U false [Space] c = false).
  { unfold in_class. simpl. rewrite Hs. reflexivity. }
  assert (Hall : Forall (fun x => in_class U false [Space] x = true) ws).
  { apply Forall_impl with (2 := Hws). intros x Hx. unfold in_class.
    simpl. rewrite Hx. reflexivity. }
  match goal with |- context [first_match U _ ?s] => set (st := s) end.
  assert (Hm : exists m,
    rematch U (seq [Bol; Grp 1 (lit "export"); Grp 2 (Plus s_);
                    Grp 3 (Cls false [Word; One (ch "+")])])
            (left st) (right st) = Some m /\
    m_left m = c :: rev ws ++ rev (codes "export") ++ l /\
    m_right m = rest /\
    group_spans (m_caps m) 1 [KR; WS; Token.Name]
    = [span_at (length l) Token.Keyword_Reserved (codes "export");
       span_at (6 + length l) Token.Whitespace ws;
       span_at (length ws + (6 + length l)) Token.Name [c]]).
  { unfold rematch, s_. remember (Plus (Cls false [Space])) as X eqn:EX.
    destruct Hl as [Hl|[l' Hl]]; simpl in Hl; subst l; subst st;
      (cbn -[matched]; subst X; eexists; split;
       [ eapply plus_class_run;
         [exact Hc|reflexivity|exact Hne|exact Hall|];
         cbn -[matched]; rewrite Hw; cbn [orb]; reflexivity
       | cbn -[matched]; split; [reflexivity|]; split; [reflexivity|];
         rewrite (matched_app _ _ (codes "export")) by reflexivity;
         rewrite (matched_app _ _ ws) by reflexivity;
         rewrite (matched_app _ _ [c]) by reflexivity;
         rewrite length_app, length_rev; reflexivity ]). }
  destruct Hm as (m & Hm & L & Rm & G).
  assert (F : first_match U (tokens St.root) st
              = Some (nth 8 root string_rule, m)).
  { apply (first_match_app U (firstn 8 root) (nth 8 root string_rule)
                           (skipn 9 root) st m); [|exact Hm].
    intros r' Hin. cbn in Hin. subst st. cbn [left right].
    destruct Hl as [Hl|[l' Hl]]; simpl in Hl; subst l;
      repeat (destruct Hin as [<-|Hin]; [vm_compute; reflexivity|]);
      destruct Hin. }
  rewrite F. cbn [nth root act emit]. rewrite G.
  unfold after. cbn [trans transition fold_left]. rewrite L, Rm.
  subst st. reflexivity.
Qed.
End ExportRule.

(** C9.  The [export] rule of [root] takes one character of the identifier.
    At the start of a line, on [export], then the blanks [ws], then a word
    character [c] that begins an identifier, the iteration emits the keyword
    [export], a [Whitespace] span for [ws] and a [Name] span holding [c]
    alone; the cursor stops right after [c], so the characters that follow
    [c] are left to later iterations.  On [export foo] the spans are
    [export], the blank, [f], and then [oo] from the identifier rule. *)
Theorem export_takes_one_char (U : unitab) :
  (forall st ws c rest,
     top (stack st) = St.root ->
     at_line_start st ->
     right st = codes "export" ++ ws ++ c :: rest ->
     ws <> [] ->
     Forall (fun x => is_space U x = true) ws ->
     is_word U c = true ->
     is_space U c = false ->
     step U tokens st
     = ([span_at (cursor st) Token.Keyword_Reserved (codes "export");
         span_at (6 + cursor st) Token.Whitespace ws;
         span_at (length ws + (6 + cursor st)) Token.Name [c]],
        {| left := c :: rev ws ++ rev (codes "export") ++ left st;
           right := rest; stack := stack st |})) /\
  tokenize U export_foo
  = Some [span_at 0 Token.Keyword_Reserved (codes "export");
          span_at 6 Token.Whitespace (codes " ");
          span_at 7 Token.Name (codes "f");
          span_at 8 Token.Name (codes "oo")].
Proof.
  split; [apply export_step|vm_compute; reflexivity].
Qed.

Lemma export_takes_one_char_witness :
  fst (step ascii_only tokens (init export_foo))
  = [span_at 0 Token.Keyword_Reserved (codes "export");
     span_at 6 Token.Whitespace (codes " ");
     span_at 7 Token.Name (codes "f")] /\
  right (snd (step ascii_only tokens (init export_foo))) = codes "oo".
Proof.
  rewrite (proj1 (export_takes_one_char ascii_only) (init export_foo)
                 (codes " ") (ch "f") (codes "oo")).
  - split; reflexivity.
  - reflexivity.
  - left. reflexivity.
  - reflexivity.
  - discriminate.
  - repeat constructor.
  - reflexivity.
  - reflexivity.
Defined.

(** * Further properties of the table *)

Import Probe.

Section FirstCharacter.
Context (U : unitab).

Lemma star_first (m : mstate -> (mstate -> option mstate) -> option mstate)
      (q : char -> bool) :
  (forall st k res, m st k = Some res ->
     exists st' w, extends st st' w /\ first_of q w /\ k st' = Some res) ->
  forall fuel st k res, star_loop m fuel st k = Some res ->
     exists st' w, extends st st' w /\ first_of q w /\ k st' = Some res.
Proof.
  intros Hm. induction fuel as [|fuel IH]; intros st k res H; simpl in H.
  - exists st, []. split; [apply extends_refl|]. split; [exact I|exact H].
  - apply orelse_some in H. destruct H as [H|H].
    + apply Hm in H. destruct H as (st1 & w1 & E1 & F1 & H).
      destruct (Nat.ltb_spec (length (m_left st)) (length (m_left st1)))
        as [Hlt|]; [|discriminate].
      apply IH in H. destruct H as (st2 & w2 & E2 & F2 & H).
      exists st2, (w1 ++ w2). split; [eapply extends_trans; eauto|].
      split; [|exact H].
      rewrite (extends_length _ _ _ E1) in Hlt.
      destruct w1; [simpl in Hlt; lia|exact F1].
    + exists st, []. split; [apply extends_refl|]. split; [exact I|exact H].
Qed.

(** A match of [r] that consumes something begins with a character that
    [starts] accepts; when [r] is not nullable it does consume something. *)
Lemma mtch_first r :
  forall st k res, mtch U r st k = Some res ->
    exists st' w, extends st st' w /\
                  first_of (starts U r) w /\
                  (nullable r = false -> w <> []) /\
                  k st' = Some res.
Proof.
  induction r as [|c| |neg items| | | |a IHa b IHb|a IHa b IHb
                  |a IHa|a IHa|a IHa|i a IHa];
    intros st k res H; cbn [mtch] in H.
  - exists st, []. repeat split; auto using extends_refl. discriminate.
  - apply one_sound in H. destruct H as (x & cs & R & E & H).
    exists (eat x cs st), [x]. split; [apply eat_extends, R|].
    split; [exact E|]. split; [discriminate|exact H].
  - apply one_sound in H. destruct H as (x & cs & R & E & H).
    exists (eat x cs st), [x]. split; [apply eat_extends, R|].
    split; [exact E|]. split; [discriminate|exact H].
  - apply one_sound in H. destruct H as (x & cs & R & E & H).
    exists (eat x cs st), [x]. split; [apply eat_extends, R|].
    split; [exact E|]. split; [discriminate|exact H].
  - exists st, []. split; [apply extends_refl|]. split; [exact I|].
    split; [discriminate|].
    destruct (m_left st) as [|c ?]; [exact H|].
    destruct (N.eqb c 10); [exact H|discriminate].
  - exists st, []. split; [apply extends_refl|]. split; [exact I|].
    split; [discriminate|].
    destruct (m_right st) as [|c ?]; [exact H|].
    destruct (N.eqb c 10); [exact H|discriminate].
  - exists st, []. split; [apply extends_refl|]. split; [exact I|].
    split; [discriminate|].
    destruct (xorb _ _); [exact H|discriminate].
  - apply IHa in H. destruct H as (st1 & w1 & E1 & F1 & N1 & H).
    apply IHb in H. destruct H as (st2 & w2 & E2 & F2 & N2 & H).
    exists st2, (w1 ++ w2). split; [eapply extends_trans; eauto|].
    split; [|split; [|exact H]].
    + destruct w1 as [|x w1]; simpl.
      * destruct w2 as [|y w2]; [exact I|]. simpl in F2 |- *. rewrite F2.
        destruct (nullable a); [apply orb_true_r|].
        exfalso. apply N1; reflexivity.
      * simpl in F1. rewrite F1. reflexivity.
    + simpl. intros N A. apply app_eq_nil in A. destruct A as [A1 A2].
      apply andb_false_iff in N. destruct N as [N|N];
        [exact (N1 N A1)|exact (N2 N A2)].
  - apply orelse_some in H. destruct H as [H|H].
    + apply IHa in H. destruct H as (st1 & w1 & E1 & F1 & N1 & H).
      exists st1, w1. split; [exact E1|]. split; [|split; [|exact H]].
      * destruct w1; [exact I|]. simpl in *. rewrite F1. reflexivity.
      * simpl. intros N. apply orb_false_iff in N. tauto.
    + apply IHb in H. destruct H as (st1 & w1 & E1 & F1 & N1 & H).
      exists st1, w1. split; [exact E1|]. split; [|split; [|exact H]].
      * destruct w1; [exact I|]. simpl in *. rewrite F1.
        apply orb_true_r.
      * simpl. intros N. apply orb_false_iff in N. tauto.
  - apply (star_first (mtch U a) (starts U a)) in H.
    + destruct H as (st1 & w1 & E & F & H). exists st1, w1.
      split; [exact E|]. split; [exact F|]. split; [discriminate|exact H].
    + intros s k' r' X. apply IHa in X.
      destruct X as (s1 & w1 & E & F & _ & X). eauto.
  - apply IHa in H. destruct H as (st1 & w1 & E1 & F1 & N1 & H).
    apply (star_first (mtch U a) (starts U a)) in H.
    + destruct H as (st2 & w2 & E2 & F2 & H). exists st2, (w1 ++ w2).
      split; [eapply extends_trans; eauto|]. split; [|split; [|exact H]].
      * destruct w1; [exact F2|exact F1].
      * simpl. intros N A. apply app_eq_nil in A. destruct A as [A1 _].
        exact (N1 N A1).
    + intros s k' r' X. apply IHa in X.
      destruct X as (s1 & w & E & F & _ & X). eauto.
  - apply orelse_some in H. destruct H as [H|H].
    + apply IHa in H. destruct H as (st1 & w1 & E1 & F1 & N1 & H).
      exists st1, w1. split; [exact E1|]. split; [exact F1|].
      split; [discriminate|exact H].
    + exists st, []. split; [apply extends_refl|]. split; [exact I|].
      split; [discriminate|exact H].
  - apply IHa in H. destruct H as (st1 & w1 & E & F & N & H).
    exists (close i st st1), w1. split; [exact E|]. split; [exact F|].
    split; [exact N|exact H].
Qed.

(** A pattern that must consume something and cannot begin with [c] does
    not match a text that begins with [c]. *)
Lemma rematch_none r l c cs :
  nullable r = false -> starts U r c = false ->
  rematch U r l (c :: cs) = None.
Proof.
  intros N S. destruct (rematch U r l (c :: cs)) as [m|] eqn:E;
    [exfalso|reflexivity].
  unfold rematch in E. apply mtch_first in E.
  destruct E as (st' & w & (_ & R) & F & Nw & _). simpl in R.
  destruct w as [|x w]; [exact (Nw N eq_refl)|].
  simpl in R, F. injection R as <- _. congruence.
Qed.

Lemma none_starts_skip rules rs st c cs :
  right st = c :: cs ->
  none_starts U rules c = true ->
  first_match U (rules ++ rs) st = first_match U rs st.
Proof.
  intros R. induction rules as [|r rules IH]; simpl; [reflexivity|].
  intros H. apply andb_true_iff in H. destruct H as [Hr H].
  apply andb_true_iff in Hr. destruct Hr as [Hn Hs].
  apply negb_true_iff in Hn, Hs.
  rewrite R, (rematch_none (pat r) (left st) c cs Hn Hs).
  apply IH, H.
Qed.

Lemma none_starts_none rules st c cs :
  right st = c :: cs ->
  none_starts U rules c = true ->
  first_match U rules st = None.
Proof.
  intros R H. rewrite <- (app_nil_r rules).
  rewrite (none_starts_skip rules [] st c cs R H). reflexivity.
Qed.

(** The step that takes a one-type rule whose match is known. *)
Lemma step_tok st before r rest c cs t m w :
  tokens (top (stack st)) = before ++ r :: rest ->
  right st = c :: cs ->
  none_starts U before c = true ->
  act r = Tok t ->
  rematch U (pat r) (left st) (right st) = Some m ->
  m_left m = rev w ++ left st ->
  step U tokens st
  = ([span_at (cursor st) t w],
     {| left := m_left m; right := m_right m;
        stack := transition (trans r) (stack st) |}).
Proof.
  intros Ht R Hb Ha Hm L. unfold step.
  rewrite Ht, (none_starts_skip before (r :: rest) st c cs R Hb).
  cbn [first_match]. rewrite Hm. unfold emit, after. rewrite Ha.
  rewrite (matched_app _ _ _ L). reflexivity.
Qed.
End FirstCharacter.

Section Runs.
Context (U : unitab).

(** A greedy repetition of a one-character matcher runs over all of [ws]
    when the text stops matching right after [ws]. *)
Lemma star_one_run (p : char -> bool)
      (m : mstate -> (mstate -> option mstate) -> option mstate)
      (tail : text) (k : mstate -> option mstate) (res : mstate) :
  (forall st k', m st k' = one p st k') ->
  stops p tail ->
  forall ws st fuel,
    m_right st = ws ++ tail ->
    Forall (fun x => p x = true) ws ->
    length ws <= fuel ->
    k {| m_left := rev ws ++ m_left st; m_right := tail;
         m_caps := m_caps st |} = Some res ->
    star_loop m fuel st k = Some res.
Proof.
  intros Hm Hstop.
  induction ws as [|x ws IH]; intros st fuel R Hall Hf Hk.
  - simpl in R, Hk.
    assert (E : k st = Some res).
    { rewrite <- Hk. f_equal. destruct st; simpl in *. subst. reflexivity. }
    destruct fuel as [|fuel]; simpl; [exact E|].
    rewrite Hm. unfold one. rewrite R.
    destruct tail as [|c tail]; simpl; [exact E|].
    simpl in Hstop. rewrite Hstop. simpl. exact E.
  - destruct fuel as [|fuel]; [simpl in Hf; lia|].
    inversion Hall as [|? ? Hx Hws]; subst.
    cbn [star_loop]. rewrite Hm. unfold one. rewrite R. cbn [app].
    rewrite Hx. cbn [eat m_left length].
    replace (length (m_left st) <? S (length (m_left st))) with true
      by (symmetry; apply Nat.ltb_lt; lia).
    rewrite (IH (eat x (ws ++ tail) st) fuel); simpl; auto.
    + simpl in Hf. lia.
    + rewrite <- Hk. f_equal. simpl. rewrite <- app_assoc. reflexivity.
Qed.

Lemma star_class_match neg items l ws tail caps :
  Forall (fun x => in_class U neg items x = true) ws ->
  stops (in_class U neg items) tail ->
  mtch U (Star (Cls neg items))
       {| m_left := l; m_right := ws ++ tail; m_caps := caps |} Some
  = Some {| m_left := rev ws ++ l; m_right := tail; m_caps := caps |}.
Proof.
  intros Hall Hstop. cbn [mtch].
  apply (star_one_run (in_class U neg items) _ tail Some _
                      (fun _ _ => eq_refl) Hstop ws); simpl; auto.
  rewrite length_app. lia.
Qed.

Lemma plus_class_match neg items l ws tail :
  ws <> [] ->
  Forall (fun x => in_class U neg items x = true) ws ->
  stops (in_class U neg items) tail ->
  rematch U (Plus (Cls neg items)) l (ws ++ tail)
  = Some {| m_left := rev ws ++ l; m_right := tail; m_caps := [] |}.
Proof.
  intros Hne Hall Hstop. destruct ws as [|x ws]; [contradiction|].
  inversion Hall as [|? ? Hx Hws]; subst.
  unfold rematch. cbn [mtch]. unfold one at 1. cbn [m_right app].
  rewrite Hx.
  rewrite (star_one_run (in_class U neg items) _ tail Some
             {| m_left := rev (x :: ws) ++ l; m_right := tail;
                m_caps := [] |}
             (fun _ _ => eq_refl) Hstop ws); simpl; auto.
  - rewrite length_app. lia.
  - rewrite <- app_assoc. reflexivity.
Qed.
End Runs.

(** ** Characters without a rule *)

Ltac split_eqb c H :=
  repeat match goal with
         | |- context [N.eqb ?k c] =>
             let E := fresh "E" in
             destruct (N.eqb_spec k c) as [E|E];
             [exfalso; subst c; H|]
         end.

(** X1.  In the state [root] the characters [! # $ % & * + / > ? ^ _ | ~]
    begin no token: wherever one of them stands at the cursor, the step
    emits it as a one-character [Error] span and the stack stays as it
    is. *)
Theorem root_unlexed (U : unitab) (st : dstate) (c : char) (cs : text) :
  top (stack st) = St.root ->
  right st = c :: cs ->
  In c unlexed_in_root ->
  step U tokens st = ([error_span st c], skip c cs st).
Proof.
  intros Ht R Hin. unfold step. rewrite Ht.
  rewrite (none_starts_none U (tokens St.root) st c cs R).
  - rewrite R. reflexivity.
  - cbn in Hin.
    repeat (destruct Hin as [<-|Hin]; [vm_compute; reflexivity|]).
    destruct Hin.
Qed.

Lemma root_unlexed_witness :
  step ascii_only tokens (init (codes "_x"))
  = ([span_at 0 Token.Error (codes "_")],
     {| left := codes "_"; right := codes "x"; stack := [St.root] |}).
Proof.
  apply (root_unlexed ascii_only (init (codes "_x")) (ch "_") (codes "x")).
  - reflexivity.
  - reflexivity.
  - cbn. tauto.
Defined.

(** X2.  The state [sourcelist] has rules for blanks, the two parentheses,
    the comma and the double quote only: any other character at the cursor,
    a letter or a digit included, comes out as a one-character [Error]
    span and [sourcelist] stays on top. *)
Theorem sourcelist_rejects (U : unitab) (st : dstate) (c : char) (cs : text) :
  top (stack st) = St.sourcelist ->
  right st = c :: cs ->
  is_space U c = false ->
  ~ In c sourcelist_marks ->
  step U tokens st = ([error_span st c], skip c cs st) /\
  top (stack (skip c cs st)) = St.sourcelist.
Proof.
  intros Ht R Hs Hn. split; [|exact Ht]. unfold step. rewrite Ht.
  rewrite (none_starts_none U (tokens St.sourcelist) st c cs R).
  - rewrite R. reflexivity.
  - cbn -[N.eqb]. rewrite Hs.
    split_eqb c ltac:(apply Hn; cbn; tauto).
    reflexivity.
Qed.

Lemma sourcelist_rejects_witness :
  step ascii_only tokens
       {| left := []; right := codes "as"; stack := [St.sourcelist; St.root] |}
  = ([span_at 0 Token.Error (codes "a")],
     {| left := codes "a"; right := codes "s";
        stack := [St.sourcelist; St.root] |}).
Proof.
  apply (sourcelist_rejects ascii_only
           {| left := []; right := codes "as";
              stack := [St.sourcelist; St.root] |} (ch "a") (codes "s")).
  - reflexivity.
  - reflexivity.
  - reflexivity.
  - cbn. intros [H|[H|[H|[H|[]]]]]; discriminate H.
Defined.

(** X3.  In the state [module] a character that is neither a blank nor a
    lowercase letter comes out as a one-character [Error] span, and
    [module] stays on top: the state is left only by a name that starts
    with a lowercase letter. *)
Theorem module_rejects (U : unitab) (st : dstate) (c : char) (cs : text) :
  top (stack st) = St.module ->
  right st = c :: cs ->
  is_space U c = false ->
  is_Ll U c = false ->
  step U tokens st = ([error_span st c], skip c cs st) /\
  stack (skip c cs st) = stack st.
Proof.
  intros Ht R Hs Hl. split; [|reflexivity]. unfold step. rewrite Ht.
  rewrite (none_starts_none U (tokens St.module) st c cs R).
  - rewrite R. reflexivity.
  - cbn -[N.eqb]. rewrite Hs, Hl. reflexivity.
Qed.

Lemma module_rejects_witness :
  step ascii_only tokens
       {| left := []; right := codes "Foo"; stack := [St.module; St.root] |}
  = ([span_at 0 Token.Error (codes "F")],
     {| left := codes "F"; right := codes "oo";
        stack := [St.module; St.root] |}).
Proof.
  apply (module_rejects ascii_only
           {| left := []; right := codes "Foo";
              stack := [St.module; St.root] |} (ch "F") (codes "oo"));
    reflexivity.
Defined.

(** ** Maximal runs *)

Lemma in_class_space (U : unitab) (x : char) :
  in_class U false [Space] x = is_space U x.
Proof. unfold in_class. simpl. apply orb_false_r. Qed.

Lemma stops_ext (p q : char -> bool) (tail : text) :
  (forall x, p x = q x) -> stops q tail -> stops p tail.
Proof. intros E. destruct tail; simpl; [auto|]. rewrite E. auto. Qed.

(** X4.  Blanks are taken as one run.  In the states [root], [module],
    [sourcelist] and [importList], a non-empty run [ws] of blanks at the
    cursor, followed by the end of the input or by a character that is not
    a blank, comes out as one [Whitespace] span holding all of [ws]; the
    stack is left alone. *)
Theorem blanks_run (U : unitab) (st : dstate) (ws tail : text) :
  skips_blanks (top (stack st)) = true ->
  right st = ws ++ tail ->
  ws <> [] ->
  Forall (fun x => is_space U x = true) ws ->
  stops (is_space U) tail ->
  step U tokens st
  = ([span_at (cursor st) Token.Whitespace ws],
     {| left := rev ws ++ left st; right := tail; stack := stack st |}).
Proof.
  intros Hk R Hne Hall Hstop.
  assert (Hm : rematch U (Plus s_) (left st) (right st)
               = Some {| m_left := rev ws ++ left st; m_right := tail;
                         m_caps := [] |}).
  { rewrite R. apply plus_class_match; [exact Hne| |].
    - apply Forall_impl with (2 := Hall). intros x Hx.
      rewrite in_class_space. exact Hx.
    - apply stops_ext with (2 := Hstop). apply in_class_space. }
  destruct ws as [|x ws]; [contradiction|].
  inversion Hall as [|? ? Hx _]; subst.
  set (r := {| pat := Plus s_; act := Tok WS; trans := [] |}).
  set (m := {| m_left := rev (x :: ws) ++ left st; m_right := tail;
               m_caps := [] |}) in *.
  destruct (top (stack st)) eqn:Ht; try discriminate.
  - rewrite (step_tok U st [hd r root] r (skipn 2 root) x (ws ++ tail)
               WS m (x :: ws)); auto.
    + rewrite Ht. reflexivity.
    + cbn -[N.eqb]. split_eqb x ltac:(vm_compute in Hx; discriminate).
      reflexivity.
  - rewrite (step_tok U st [] r (tl module) x (ws ++ tail)
               WS m (x :: ws)); auto.
    rewrite Ht. reflexivity.
  - rewrite (step_tok U st [] r (tl sourcelist) x (ws ++ tail)
               WS m (x :: ws)); auto.
    rewrite Ht. reflexivity.
  - rewrite (step_tok U st [] r (tl importList) x (ws ++ tail)
               WS m (x :: ws)); auto.
    rewrite Ht. reflexivity.
Qed.

Lemma blanks_run_witness :
  step ascii_only tokens (init (codes "   x"))
  = ([span_at 0 Token.Whitespace (codes "   ")],
     {| left := codes "   "; right := codes "x"; stack := [St.root] |}).
Proof.
  apply (blanks_run ascii_only (init (codes "   x")) (codes "   ")
                    (codes "x")).
  - reflexivity.
  - reflexivity.
  - discriminate.
  - repeat constructor.
  - reflexivity.
Defined.

(** X5.  A line comment runs to the end of its line.  In the state [root],
    on [--] followed by a text [body] without a newline and then the end
    of the input or a newline, the step emits one [Comment.Single] span
    holding [--] and [body]; the newline is left in the input and the
    stack is left alone. *)
Theorem line_comment (U : unitab) (st : dstate) (body tail : text) :
  top (stack st) = St.root ->
  right st = codes "--" ++ body ++ tail ->
  Forall (fun x => not_newline x = true) body ->
  stops not_newline tail ->
  step U tokens st
  = ([span_at (cursor st) Token.Comment_Single (codes "--" ++ body)],
     {| left := rev body ++ rev (codes "--") ++ left st; right := tail;
        stack := stack st |}).
Proof.
  intros Ht R Hall Hstop.
  set (r := {| pat := seq [lit "--"; Star Dot; Eol];
               act := Tok Token.Comment_Single; trans := [] |}).
  rewrite (step_tok U st (firstn 2 root) r (skipn 3 root) (ch "-")
             (ch "-" :: body ++ tail) Token.Comment_Single
             {| m_left := rev body ++ rev (codes "--") ++ left st;
                m_right := tail; m_caps := [] |} (codes "--" ++ body)).
  - reflexivity.
  - rewrite Ht. reflexivity.
  - exact R.
  - vm_compute. reflexivity.
  - reflexivity.
  - rewrite R. unfold rematch. cbn -[star_loop].
    apply (star_one_run not_newline _ tail _ _ (fun _ _ => eq_refl) Hstop
                        body); simpl; auto.
    + rewrite length_app. lia.
    + destruct tail as [|c tail]; [reflexivity|].
      simpl in Hstop. unfold not_newline in Hstop.
      apply negb_false_iff in Hstop. rewrite Hstop. reflexivity.
  - simpl. rewrite <- !app_assoc. reflexivity.
Qed.

Lemma line_comment_witness :
  step ascii_only tokens (init (codes "-- a line" ++ [10%N] ++ codes "x"))
  = ([span_at 0 Token.Comment_Single (codes "-- a line")],
     {| left := rev (codes "-- a line"); right := 10%N :: codes "x";
        stack := [St.root] |}).
Proof.
  apply (line_comment ascii_only
           (init (codes "-- a line" ++ [10%N] ++ codes "x"))
           (codes " a line") (10%N :: codes "x")).
  - reflexivity.
  - reflexivity.
  - repeat constructor.
  - reflexivity.
Defined.

(** X6.  An identifier that starts with an uppercase letter is one token.
    In the state [root], an uppercase letter [c] followed by a run [body]
    of word characters and apostrophes, then the end of the input or a
    character of neither kind, comes out as one [Name] span holding [c]
    and [body]; the stack is left alone. *)
Theorem upper_identifier (U : unitab) (st : dstate) (c : char)
        (body tail : text) :
  top (stack st) = St.root ->
  right st = c :: body ++ tail ->
  is_Lu U c = true ->
  is_Ll U c = false ->
  is_space U c = false ->
  Forall (fun x => ident_char U x = true) body ->
  stops (ident_char U) tail ->
  step U tokens st
  = ([span_at (cursor st) Token.Name (c :: body)],
     {| left := rev body ++ c :: left st; right := tail;
        stack := stack st |}).
Proof.
  intros Ht R Hu Hl Hs Hall Hstop.
  set (r := {| pat := Cat (Cls false [Lu]) (Star wq); act := Tok Token.Name;
               trans := [] |}).
  rewrite (step_tok U st (firstn 13 root) r (skipn 14 root) c
             (body ++ tail) Token.Name
             {| m_left := rev body ++ c :: left st;
                m_right := tail; m_caps := [] |} (c :: body)).
  - reflexivity.
  - rewrite Ht. reflexivity.
  - exact R.
  - cbn -[N.eqb]. rewrite Hs, Hl.
    split_eqb c ltac:(vm_compute in Hu; discriminate).
    reflexivity.
  - reflexivity.
  - rewrite R. unfold rematch. cbn [pat r mtch]. unfold one at 1.
    cbn [m_right]. unfold in_class at 1. cbn [existsb item_has xorb].
    rewrite Hu. cbn [orb eat m_left m_right m_caps].
    apply (star_class_match U false [Word; One squote]); assumption.
  - simpl. rewrite <- app_assoc. reflexivity.
Qed.

Lemma upper_identifier_witness :
  step ascii_only tokens (init (codes "Foo' bar"))
  = ([span_at 0 Token.Name (codes "Foo'")],
     {| left := rev (codes "Foo'"); right := codes " bar";
        stack := [St.root] |}).
Proof.
  apply (upper_identifier ascii_only (init (codes "Foo' bar")) (ch "F")
                          (codes "oo'") (codes " bar")).
  - reflexivity.
  - reflexivity.
  - reflexivity.
  - reflexivity.
  - reflexivity.
  - repeat constructor.
  - reflexivity.
Defined.

(** ** Inside comments and strings *)

Lemma star_loop_some (m : mstate -> (mstate -> option mstate) -> option mstate)
      fuel st :
  star_loop m fuel st Some <> None.
Proof.
  destruct fuel; simpl; [discriminate|]. apply orelse_ok. right.
  discriminate.
Qed.

(** X7.  Inside a block comment nothing is an error.  With the state
    [comment] on top, whatever character [c] is at the cursor, the step
    takes a rule and emits exactly one [Comment.Multiline] span: [c]
    alone, or one of the two delimiters. *)
Theorem comment_takes_all (U : unitab) (st : dstate) (c : char) (cs : text) :
  top (stack st) = St.comment ->
  right st = c :: cs ->
  exists w st',
    step U tokens st
    = ([span_at (cursor st) Token.Comment_Multiline w], st') /\
    (w = [c] \/ w = codes "{-" \/ w = codes "-}") /\
    left st' = rev w ++ left st.
Proof.
  intros Ht R. destruct st as [l rt stk]. simpl in *. subst rt.
  unfold step. cbn [stack]. rewrite Ht.
  unfold rematch, cursor. cbn -[matched N.eqb].
  unfold in_class. cbn -[matched N.eqb].
  destruct (N.eqb_spec c 45) as [->|N1]; cbn -[matched N.eqb].
  - (* the minus sign: a closer, or the sign alone *)
    destruct cs as [|d cs]; cbn -[matched N.eqb].
    + eexists; eexists. split; [reflexivity|]. cbn [left].
      rewrite (matched_app l _ [45%N]) by reflexivity. auto.
    + destruct (N.eqb_spec 125 d) as [<-|N2]; cbn -[matched N.eqb].
      * eexists; eexists. split; [reflexivity|]. cbn [left].
        rewrite (matched_app l _ (codes "-}")) by reflexivity. auto.
      * eexists; eexists. split; [reflexivity|]. cbn [left].
        rewrite (matched_app l _ [45%N]) by reflexivity. auto.
  - destruct (N.eqb_spec c 123) as [->|N2]; cbn -[matched N.eqb].
    + (* the brace: an opener, or the brace alone *)
      destruct cs as [|d cs]; cbn -[matched N.eqb].
      * eexists; eexists. split; [reflexivity|]. cbn [left].
        rewrite (matched_app l _ [123%N]) by reflexivity. auto.
      * destruct (N.eqb_spec 45 d) as [<-|N3]; cbn -[matched N.eqb].
        -- eexists; eexists. split; [reflexivity|]. cbn [left].
           rewrite (matched_app l _ (codes "{-")) by reflexivity. auto.
        -- eexists; eexists. split; [reflexivity|]. cbn [left].
           rewrite (matched_app l _ [123%N]) by reflexivity. auto.
    + destruct (N.eqb_spec c 125) as [->|N3]; cbn -[matched N.eqb].
      * eexists; eexists. split; [reflexivity|]. cbn [left].
        rewrite (matched_app l _ [125%N]) by reflexivity. auto.
      * eexists; eexists. split; [reflexivity|]. cbn [left].
        rewrite (matched_app l _ [c]) by reflexivity. auto.
Qed.

Lemma comment_takes_all_witness :
  exists st',
    step ascii_only tokens
         {| left := []; right := codes "-} x";
            stack := [St.comment; St.root] |}
    = ([span_at 0 Token.Comment_Multiline (codes "-}")], st').
Proof.
  destruct (comment_takes_all ascii_only
              {| left := []; right := codes "-} x";
                 stack := [St.comment; St.root] |}
              (ch "-") (codes "} x") eq_refl eq_refl)
    as (w & st' & H & _ & _).
  exists st'. rewrite H. vm_compute in H. injection H as <- _.
  reflexivity.
Defined.

(** X8.  Inside a string literal nothing is an error.  With the state
    [string] on top, whatever character is at the cursor, the step takes a
    rule and emits exactly one non-empty span, of type [String] or
    [String.Escape]. *)
Theorem string_takes_all (U : unitab) (st : dstate) (c : char) (cs : text) :
  top (stack st) = St.string ->
  right st = c :: cs ->
  exists t w st',
    step U tokens st = ([span_at (cursor st) t w], st') /\
    (t = Token.String \/ t = Token.String_Escape) /\
    w <> [] /\
    left st' = rev w ++ left st.
Proof.
  intros Ht R.
  destruct (plain_char U c) eqn:Hp.
  - (* a plain character: the first rule takes a run *)
    set (r := {| pat := Plus (Cls true [One bslash; One dquote]);
                 act := Tok Token.String; trans := [] |}).
    destruct (rematch U (pat r) (left st) (right st)) as [m|] eqn:Hm.
    + destruct (rematch_sound U _ _ _ _ Hm) as (w & L & _ & N & _).
      exists Token.String, w,
        {| left := m_left m; right := m_right m;
           stack := transition (trans r) (stack st) |}.
      split; [|split; [auto|split; [apply N; reflexivity|exact L]]].
      apply (step_tok U st [] r (tl string) c cs Token.String m w);
        auto.
      rewrite Ht. reflexivity.
    + exfalso. revert Hm. rewrite R. unfold rematch. cbn [pat r mtch].
      unfold one at 1. cbn [m_right].
      change (in_class U true [One bslash; One dquote] c)
        with (plain_char U c).
      rewrite Hp. apply star_loop_some.
  - unfold plain_char, in_class in Hp. cbn -[N.eqb] in Hp.
    apply negb_false_iff in Hp.
    destruct (N.eqb_spec c bslash) as [->|N1].
    + exists Token.String_Escape, [bslash],
        {| left := bslash :: left st; right := cs;
           stack := transition [to St.escape] (stack st) |}.
      split; [|split; [auto|split; [discriminate|reflexivity]]].
      apply (step_tok U st (firstn 1 string)
               {| pat := Chr bslash; act := Tok Token.String_Escape;
                  trans := [to St.escape] |}
               (skipn 2 string) bslash cs Token.String_Escape
               {| m_left := bslash :: left st; m_right := cs;
                  m_caps := [] |} [bslash]); auto.
      * rewrite Ht. reflexivity.
      * rewrite R. reflexivity.
    + destruct (N.eqb_spec c dquote) as [->|N2]; [|discriminate Hp].
      exists Token.String, [dquote],
        {| left := dquote :: left st; right := cs;
           stack := transition [pop] (stack st) |}.
      split; [|split; [auto|split; [discriminate|reflexivity]]].
      apply (step_tok U st (firstn 2 string)
               {| pat := Chr dquote; act := Tok Token.String;
                  trans := [pop] |}
               [] dquote cs Token.String
               {| m_left := dquote :: left st; m_right := cs;
                  m_caps := [] |} [dquote]); auto.
      * rewrite Ht. reflexivity.
      * rewrite R. reflexivity.
Qed.

Lemma string_takes_all_witness :
  exists st',
    step ascii_only tokens
         {| left := []; right := codes "ab\n";
            stack := [St.string; St.root] |}
    = ([span_at 0 Token.String (codes "ab")], st').
Proof.
  destruct (string_takes_all ascii_only
              {| left := []; right := codes "ab\n";
                 stack := [St.string; St.root] |}
              (ch "a") (codes "b\n") eq_refl eq_refl)
    as (t & w & st' & H & _ & _).
  exists st'. rewrite H. vm_compute in H. injection H as <- <- _.
  reflexivity.
Defined.

(** ** Nesting *)

Section Nesting.
Context (U : unitab).

Lemma steps_add a b st :
  steps U tokens (a + b) st = steps U tokens b (steps U tokens a st).
Proof.
  revert st. induction a as [|a IH]; intros st; simpl; [reflexivity|].
  apply IH.
Qed.

Lemma repeat_shift {A} (x : A) n l : repeat x n ++ x :: l = x :: repeat x n ++ l.
Proof.
  induction n as [|n IH]; simpl; [reflexivity|]. rewrite IH. reflexivity.
Qed.

Lemma step_open_root l r stk :
  snd (step U tokens {| left := l; right := codes "{-" ++ r;
                        stack := St.root :: stk |})
  = {| left := rev (codes "{-") ++ l; right := r;
       stack := St.comment :: St.root :: stk |}.
Proof. reflexivity. Qed.

Lemma step_open l r stk :
  snd (step U tokens {| left := l; right := codes "{-" ++ r;
                        stack := St.comment :: stk |})
  = {| left := rev (codes "{-") ++ l; right := r;
       stack := St.comment :: St.comment :: stk |}.
Proof. reflexivity. Qed.

Lemma step_close l r s stk :
  snd (step U tokens {| left := l; right := codes "-}" ++ r;
                        stack := St.comment :: s :: stk |})
  = {| left := rev (codes "-}") ++ l; right := r; stack := s :: stk |}.
Proof. reflexivity. Qed.

Lemma opens_steps n :
  forall l r stk,
    steps U tokens n {| left := l; right := opens n ++ r;
                        stack := St.comment :: stk |}
    = {| left := rev (opens n) ++ l; right := r;
         stack := repeat St.comment n ++ St.comment :: stk |}.
Proof.
  induction n as [|n IH]; intros l r stk; [reflexivity|].
  change (opens (S n)) with (codes "{-" ++ opens n).
  cbn [steps]. rewrite <- app_assoc, step_open, IH.
  rewrite rev_app_distr, <- app_assoc, repeat_shift. reflexivity.
Qed.

Lemma closes_steps n :
  forall l r s stk,
    steps U tokens n {| left := l; right := closes n ++ r;
                        stack := repeat St.comment n ++ s :: stk |}
    = {| left := rev (closes n) ++ l; right := r; stack := s :: stk |}.
Proof.
  induction n as [|n IH]; intros l r s stk; [reflexivity|].
  change (closes (S n)) with (codes "-}" ++ closes n).
  cbn [steps repeat app]. rewrite <- app_assoc.
  destruct n as [|n].
  - cbn [repeat app]. rewrite step_close. reflexivity.
  - cbn [repeat app]. rewrite step_close.
    change (St.comment :: repeat St.comment n ++ s :: stk)
      with (repeat St.comment (S n) ++ s :: stk).
    rewrite IH, rev_app_distr, <- app_assoc. reflexivity.
Qed.
End Nesting.

(** X9.  Block comments nest to any depth.  From the state [root], [n+1]
    openers followed by [n+1] closers are taken in [2(n+1)] steps, one per
    delimiter; the stack grows to [n+1] comment states and is back to what
    it was after the last closer, with the cursor right behind it. *)
Theorem comments_nest (U : unitab) (n : nat) (l rest : text)
        (stk : list St.name) :
  stack (steps U tokens (S n)
           {| left := l; right := opens (S n) ++ closes (S n) ++ rest;
              stack := St.root :: stk |})
  = repeat St.comment (S n) ++ St.root :: stk /\
  steps U tokens (S n + S n)
        {| left := l; right := opens (S n) ++ closes (S n) ++ rest;
           stack := St.root :: stk |}
  = {| left := rev (opens (S n) ++ closes (S n)) ++ l; right := rest;
       stack := St.root :: stk |}.
Proof.
  assert (H : steps U tokens (S n)
                {| left := l; right := opens (S n) ++ closes (S n) ++ rest;
                   stack := St.root :: stk |}
              = {| left := rev (opens (S n)) ++ l;
                   right := closes (S n) ++ rest;
                   stack := repeat St.comment (S n) ++ St.root :: stk |}).
  { change (opens (S n)) with (codes "{-" ++ opens n).
    cbn [steps]. rewrite <- app_assoc, step_open_root, opens_steps.
    rewrite rev_app_distr, <- app_assoc, repeat_shift. reflexivity. }
  split.
  - rewrite H. reflexivity.
  - rewrite steps_add, H, closes_steps.
    rewrite rev_app_distr, <- app_assoc. reflexivity.
Qed.

(** ** The shape of the stack *)

Lemma wf_tail s b below :
  wf_stack (s :: b :: below) = true -> wf_stack (b :: below) = true.
Proof.
  cbn [wf_stack]. intros H. apply andb_true_iff in H. tauto.
Qed.

Lemma transition_wf s below r :
  wf_stack (s :: below) = true ->
  In r (tokens s) ->
  wf_stack (transition (trans r) (s :: below)) = true.
Proof.
  intros W Hin.
  destruct s; cbn in Hin;
    repeat (destruct Hin as [<-|Hin];
            [cbn [trans transition fold_left apply top hd];
             try exact W;
             try (cbn [wf_stack allowed andb]; exact W);
             try (destruct below as [|b below];
                  [cbn in W |- *; congruence
                  |try exact (wf_tail _ _ _ W);
                   destruct b; cbn in W |- *; congruence])
            |]);
    destruct Hin.
Qed.

Lemma step_wf (U : unitab) st :
  wf_stack (stack st) = true ->
  wf_stack (stack (snd (step U tokens st))) = true.
Proof.
  intros W. unfold step.
  destruct (first_match U (tokens (top (stack st))) st) as [[r m]|] eqn:F.
  - apply first_match_some in F. destruct F as [Hin _].
    cbn [snd after stack].
    destruct (stack st) as [|s below]; [discriminate W|].
    apply transition_wf; assumption.
  - destruct (right st); exact W.
Qed.

(** X10.  The stack keeps its shape.  In every state reached from the
    start of any input the stack has [root] at the bottom, [escape] lies
    only directly on [string], [string] and [module] only directly on
    [root], and [comment], [sourcelist] and [importList] only on
    themselves or on [root]. *)
Theorem stack_shape (U : unitab) (txt : text) (n : nat) :
  wf_stack (stack (steps U tokens n (init txt))) = true.
Proof.
  assert (H : forall st, wf_stack (stack st) = true ->
                         wf_stack (stack (steps U tokens n st)) = true).
  { induction n as [|n IH]; intros st W; [exact W|].
    cbn [steps]. apply IH, step_wf, W. }
  apply H. reflexivity.
Qed.

(** ** String literals *)

(** X11.  A string literal without a backslash is three [String] spans.
    From the state [root] on a double quote, a non-empty [body] free of
    backslashes and double quotes, and a double quote: the opening quote
    enters the state [string], the body is taken whole, and the closing
    quote returns to the stack the literal began with, the cursor right
    behind it. *)
Theorem plain_string (U : unitab) (l body rest : text)
        (below : list St.name) :
  body <> [] ->
  Forall (fun x => plain_char U x = true) body ->
  let st0 := {| left := l; right := dquote :: body ++ dquote :: rest;
                stack := St.root :: below |} in
  let st1 := {| left := dquote :: l; right := body ++ dquote :: rest;
                stack := St.string :: St.root :: below |} in
  let st2 := {| left := rev body ++ dquote :: l; right := dquote :: rest;
                stack := St.string :: St.root :: below |} in
  let st3 := {| left := dquote :: rev body ++ dquote :: l; right := rest;
                stack := St.root :: below |} in
  step U tokens st0 = ([span_at (cursor st0) Token.String [dquote]], st1) /\
  step U tokens st1 = ([span_at (cursor st1) Token.String body], st2) /\
  step U tokens st2 = ([span_at (cursor st2) Token.String [dquote]], st3).
Proof.
  intros Hne Hall st0 st1 st2 st3. split; [|split].
  - apply (step_tok U st0 (firstn 26 root)
             {| pat := Chr dquote; act := Tok Token.String;
                trans := [to St.string] |}
             (skipn 27 root) dquote (body ++ dquote :: rest) Token.String
             {| m_left := dquote :: l; m_right := body ++ dquote :: rest;
                m_caps := [] |} [dquote]); reflexivity.
  - destruct body as [|x body]; [contradiction|].
    apply (step_tok U st1 []
             {| pat := Plus (Cls true [One bslash; One dquote]);
                act := Tok Token.String; trans := [] |}
             (tl string) x (body ++ dquote :: rest) Token.String
             {| m_left := rev (x :: body) ++ dquote :: l;
                m_right := dquote :: rest; m_caps := [] |} (x :: body));
      try reflexivity.
    apply (plus_class_match U true [One bslash; One dquote]
             (dquote :: l) (x :: body) (dquote :: rest)).
    + discriminate.
    + exact Hall.
    + reflexivity.
  - apply (step_tok U st2 (firstn 2 string)
             {| pat := Chr dquote; act := Tok Token.String;
                trans := [pop] |}
             [] dquote rest Token.String
             {| m_left := dquote :: rev body ++ dquote :: l;
                m_right := rest; m_caps := [] |} [dquote]);
      try reflexivity.
Qed.

Lemma plain_string_witness :
  step ascii_only tokens
       {| left := [dquote]; right := codes "f" ++ dquote :: codes " as g";
          stack := [St.string; St.root] |}
  = ([span_at 1 Token.String (codes "f")],
     {| left := codes "f" ++ [dquote]; right := dquote :: codes " as g";
        stack := [St.string; St.root] |}).
Proof.
  apply (plain_string ascii_only [] (codes "f") (codes " as g") []).
  - discriminate.
  - repeat constructor.
Defined.

(** ** Integer literals *)

Ltac split_eqb2 c H :=
  repeat match goal with
         | |- context [N.eqb ?k c] =>
             let E := fresh "E" in
             destruct (N.eqb_spec k c) as [E|E];
             [exfalso; subst c; H|]
         | |- context [N.eqb c ?k] =>
             let E := fresh "E" in
             destruct (N.eqb_spec c k) as [E|E];
             [exfalso; subst c; H|]
         end.

Section Numbers.
Context (U : unitab).

Lemma ascii_digit_cases x :
  ascii_digit x = true -> In x (codes "0123456789").
Proof.
  unfold ascii_digit, between. intros H. apply andb_true_iff in H.
  destruct H as [H1 H2]. apply N.leb_le in H1, H2. cbn.
  assert (x = 48 \/ x = 49 \/ x = 50 \/ x = 51 \/ x = 52 \/ x = 53 \/
          x = 54 \/ x = 55 \/ x = 56 \/ x = 57)%N by lia.
  intuition auto.
Qed.

Lemma ascii_digit_is_digit x : ascii_digit x = true -> is_digit U x = true.
Proof.
  intros H. apply ascii_digit_cases in H. cbn in H.
  repeat (destruct H as [<-|H]; [reflexivity|]). destruct H.
Qed.

(** One round of [(_*\d)] on a digit takes the digit. *)
Lemma group_digit i x rest' st K :
  ascii_digit x = true ->
  m_right st = x :: rest' ->
  mtch U (Grp i (Cat us d_)) st K = K (close i st (eat x rest' st)).
Proof.
  intros Hx R. pose proof (ascii_digit_is_digit x Hx) as Hd.
  cbn [mtch us d_]. cbn [star_loop]. unfold one. rewrite R.
  split_eqb2 x ltac:(vm_compute in Hx; discriminate).
  cbn [orelse]. unfold in_class. cbn [existsb item_has xorb].
  rewrite Hd. reflexivity.
Qed.

Lemma group_stop i tail st K :
  stops (number_more U) tail ->
  m_right st = tail ->
  mtch U (Grp i (Cat us d_)) st K = None.
Proof.
  intros Hs R. cbn [mtch us d_]. cbn [star_loop]. unfold one. rewrite R.
  destruct tail as [|c tail]; [reflexivity|].
  simpl in Hs. unfold number_more in Hs. apply orb_false_iff in Hs.
  destruct Hs as [Hd Hs].
  split_eqb2 c ltac:(vm_compute in Hs; discriminate).
  cbn [orelse]. unfold in_class. cbn [existsb item_has xorb].
  rewrite Hd. reflexivity.
Qed.

Lemma star_digits_run i tail :
  stops (number_more U) tail ->
  forall ds st fuel,
    m_right st = ds ++ tail ->
    Forall (fun x => ascii_digit x = true) ds ->
    length ds <= fuel ->
    exists m,
      star_loop (mtch U (Grp i (Cat us d_))) fuel st Some = Some m /\
      m_left m = rev ds ++ m_left st /\ m_right m = tail.
Proof.
  intros Hs. induction ds as [|x ds IH]; intros st fuel R Hall Hf.
  - exists st. simpl in R. split; [|auto].
    destruct fuel as [|fuel]; [reflexivity|]. cbn [star_loop].
    rewrite (group_stop i tail st _ Hs R). reflexivity.
  - destruct fuel as [|fuel]; [simpl in Hf; lia|].
    inversion Hall as [|? ? Hx Hds]; subst.
    cbn [star_loop]. simpl in R.
    rewrite (group_digit i x (ds ++ tail) st _ Hx R).
    cbn [close eat m_left length].
    replace (length (m_left st) <? S (length (m_left st))) with true
      by (symmetry; apply Nat.ltb_lt; lia).
    destruct (IH (close i st (eat x (ds ++ tail) st)) fuel)
      as (m & Hm & L & Rm); auto.
    + simpl in Hf. lia.
    + exists m. cbn [close eat] in Hm. rewrite Hm. split; [reflexivity|].
      split; [|exact Rm]. rewrite L. simpl. rewrite <- app_assoc.
      reflexivity.
Qed.

Lemma star_digits_fail i tail K :
  stops (number_more U) tail ->
  (forall st' suffix,
     Forall (fun x => ascii_digit x = true) suffix ->
     m_right st' = suffix ++ tail -> K st' = None) ->
  forall ds st fuel,
    m_right st = ds ++ tail ->
    Forall (fun x => ascii_digit x = true) ds ->
    star_loop (mtch U (Grp i (Cat us d_))) fuel st K = None.
Proof.
  intros Hs HK. induction ds as [|x ds IH]; intros st fuel R Hall.
  - destruct fuel as [|fuel]; cbn [star_loop].
    + apply (HK st []); auto.
    + simpl in R. rewrite (group_stop i tail st _ Hs R). cbn [orelse].
      apply (HK st []); auto.
  - destruct fuel as [|fuel]; cbn [star_loop].
    + apply (HK st (x :: ds)); auto.
    + inversion Hall as [|? ? Hx Hds]; subst. simpl in R.
      rewrite (group_digit i x (ds ++ tail) st _ Hx R).
      rewrite (HK st (x :: ds) Hall R).
      destruct (_ <? _); [|reflexivity].
      rewrite IH; auto.
Qed.

(** After the digits, neither an exponent nor a fraction follows. *)
Lemma no_exponent tail Y st' suffix :
  stops (number_more U) tail ->
  Forall (fun x => ascii_digit x = true) suffix ->
  m_right st' = suffix ++ tail ->
  mtch U (Cat us (Cat (Cls false (set "eE")) Y)) st' Some = None.
Proof.
  intros Hs Hall R. cbn [mtch us]. cbn [star_loop]. unfold one. rewrite R.
  destruct suffix as [|x suffix].
  - destruct tail as [|c tail]; [reflexivity|].
    simpl in Hs. unfold number_more in Hs. apply orb_false_iff in Hs.
    destruct Hs as [Hd Hs]. cbn [app].
    unfold in_class. cbn -[N.eqb].
    split_eqb2 c ltac:(vm_compute in Hs; discriminate). reflexivity.
  - inversion Hall as [|? ? Hx _]; subst. cbn [app].
    unfold in_class. cbn -[N.eqb].
    split_eqb2 x ltac:(vm_compute in Hx; discriminate). reflexivity.
Qed.

Lemma no_fraction tail Y st' suffix :
  stops (number_more U) tail ->
  Forall (fun x => ascii_digit x = true) suffix ->
  m_right st' = suffix ++ tail ->
  mtch U (Cat (Chr (ch ".")) Y) st' Some = None.
Proof.
  intros Hs Hall R. cbn [mtch]. unfold one. rewrite R.
  destruct suffix as [|x suffix].
  - destruct tail as [|c tail]; [reflexivity|].
    simpl in Hs. unfold number_more in Hs. apply orb_false_iff in Hs.
    destruct Hs as [Hd Hs]. cbn -[N.eqb].
    split_eqb2 c ltac:(vm_compute in Hs; discriminate). reflexivity.
  - inversion Hall as [|? ? Hx _]; subst. cbn -[N.eqb].
    split_eqb2 x ltac:(vm_compute in Hx; discriminate). reflexivity.
Qed.

Lemma digits_then_none REST l x ds tail :
  stops (number_more U) tail ->
  Forall (fun y => ascii_digit y = true) (x :: ds) ->
  (forall st' suffix,
     Forall (fun y => ascii_digit y = true) suffix ->
     m_right st' = suffix ++ tail -> mtch U REST st' Some = None) ->
  rematch U (Cat (run_of 1 d_) REST) l (x :: ds ++ tail) = None.
Proof.
  intros Hs Hall HK. inversion Hall as [|? ? Hx Hds]; subst.
  unfold rematch, run_of. cbn [mtch d_]. unfold one at 1. cbn [m_right].
  unfold in_class. cbn [existsb item_has xorb].
  rewrite (ascii_digit_is_digit x Hx). cbn [orb].
  apply (star_digits_fail 1 tail _ Hs HK ds); auto.
Qed.

Lemma digits_match l x ds tail :
  stops (number_more U) tail ->
  Forall (fun y => ascii_digit y = true) (x :: ds) ->
  exists m, rematch U (run_of 1 d_) l (x :: ds ++ tail) = Some m /\
            m_left m = rev (x :: ds) ++ l /\ m_right m = tail.
Proof.
  intros Hs Hall. inversion Hall as [|? ? Hx Hds]; subst.
  unfold rematch, run_of. cbn [mtch d_]. unfold one at 1. cbn [m_right].
  unfold in_class. cbn [existsb item_has xorb].
  rewrite (ascii_digit_is_digit x Hx). cbn [orb].
  destruct (star_digits_run 1 tail Hs ds
              (eat x (ds ++ tail)
                   {| m_left := l; m_right := x :: ds ++ tail;
                      m_caps := [] |})
              (S (length (ds ++ tail))))
    as (m & Hm & L & R); auto.
  - cbn [eat m_right]. rewrite length_app. lia.
  - exists m. cbn [eat m_right] in Hm. split; [exact Hm|].
    split; [|exact R]. rewrite L. simpl. rewrite <- app_assoc.
    reflexivity.
Qed.

(** A literal that starts with [0x], [0b] or [0o] needs that letter. *)
Lemma zero_prefix_none a b Y l x ds tail :
  In (a, b) [(ch "x", ch "X"); (ch "b", ch "B"); (ch "o", ch "O")] ->
  stops (number_more U) tail ->
  Forall (fun y => ascii_digit y = true) (x :: ds) ->
  rematch U (Cat (Chr (ch "0")) (Cat (Cls false [One a; One b]) Y))
          l (x :: ds ++ tail) = None.
Proof.
  intros Hab Hs Hall. inversion Hall as [|? ? Hx Hds]; subst.
  unfold rematch. cbn [mtch]. unfold one. cbn [m_right eat].
  destruct (N.eqb (ch "0") x); [|reflexivity].
  destruct ds as [|y ds]; cbn [app].
  - destruct tail as [|c tail]; [reflexivity|].
    simpl in Hs. unfold number_more in Hs. apply orb_false_iff in Hs.
    destruct Hs as [_ Hs]. unfold in_class. cbn -[N.eqb].
    cbn in Hab.
    destruct Hab as [[= <- <-]|[[= <- <-]|[[= <- <-]|[]]]];
      split_eqb2 c ltac:(vm_compute in Hs; discriminate); reflexivity.
  - inversion Hds as [|? ? Hy _]; subst. unfold in_class. cbn -[N.eqb].
    cbn in Hab.
    destruct Hab as [[= <- <-]|[[= <- <-]|[[= <- <-]|[]]]];
      split_eqb2 y ltac:(vm_compute in Hy; discriminate); reflexivity.
Qed.
End Numbers.

(** X12.  A run of decimal digits is one token.  In the state [root], a
    non-empty run [ds] of the digits [0] to [9], followed by the end of the
    input or by a character that is not a digit and none of
    [_ . e E x X b B o O], comes out as one [Number.Integer] span holding
    all of [ds]; the stack is left alone. *)
Theorem integer_literal (U : unitab) (st : dstate) (ds tail : text) :
  top (stack st) = St.root ->
  right st = ds ++ tail ->
  ds <> [] ->
  Forall (fun x => ascii_digit x = true) ds ->
  stops (number_more U) tail ->
  step U tokens st
  = ([span_at (cursor st) Token.Number_Integer ds],
     {| left := rev ds ++ left st; right := tail; stack := stack st |}).
Proof.
  intros Ht R Hne Hall Hs. destruct ds as [|x ds]; [contradiction|].
  simpl in R.
  pose proof Hall as Hall'. inversion Hall' as [|? ? Hx Hds]; subst.
  destruct (digits_match U (left st) x ds tail Hs Hall)
    as (m & Hm & L & Rm).
  unfold step. rewrite Ht.
  change (tokens St.root) with (firstn 18 root ++ skipn 18 root).
  rewrite (none_starts_skip U (firstn 18 root) (skipn 18 root) st x
             (ds ++ tail) R).
  - cbn [skipn root first_match pat]. rewrite R.
    repeat match goal with
    | |- context [rematch U ?p (left st) (x :: ds ++ tail)] =>
        let E := fresh "E" in
        assert (E : rematch U p (left st) (x :: ds ++ tail) = None)
          by first
               [ apply (zero_prefix_none U (ch "x") (ch "X"));
                 [cbn; tauto|exact Hs|exact Hall]
               | apply (zero_prefix_none U (ch "b") (ch "B"));
                 [cbn; tauto|exact Hs|exact Hall]
               | apply (zero_prefix_none U (ch "o") (ch "O"));
                 [cbn; tauto|exact Hs|exact Hall]
               | apply digits_then_none;
                 [exact Hs|exact Hall
                 |intros st' suffix Hsuf Hr;
                  exact (no_exponent U tail _ st' suffix Hs Hsuf Hr)]
               | apply digits_then_none;
                 [exact Hs|exact Hall
                 |intros st' suffix Hsuf Hr;
                  exact (no_fraction U tail _ st' suffix Hs Hsuf Hr)] ];
        rewrite E; clear E
    end.
    rewrite Hm. unfold emit, after. cbn [act trans transition fold_left].
    rewrite (matched_app _ _ _ L), L, Rm. reflexivity.
  - apply ascii_digit_cases in Hx. cbn in Hx.
    repeat (destruct Hx as [<-|Hx]; [vm_compute; reflexivity|]).
    destruct Hx.
Qed.

Lemma integer_literal_witness :
  step ascii_only tokens (init (codes "2024) x"))
  = ([span_at 0 Token.Number_Integer (codes "2024")],
     {| left := rev (codes "2024"); right := codes ") x";
        stack := [St.root] |}).
Proof.
  apply (integer_literal ascii_only (init (codes "2024) x")) (codes "2024")
                         (codes ") x")).
  - reflexivity.
  - reflexivity.
  - discriminate.
  - repeat constructor.
  - reflexivity.
Defined.

(** ** Escapes, operators, import lists *)

(** X13.  The one-character escapes.  With [escape] on top of a state [s],
    each of [a b f n r t v], the two quotes, [&] and the backslash is taken
    as a one-character [String.Escape] span, and the step returns to
    [s]. *)
Theorem simple_escape (U : unitab) (st : dstate) (c : char) (cs : text)
        (s : St.name) (below : list St.name) :
  stack st = St.escape :: s :: below ->
  right st = c :: cs ->
  In c simple_escapes ->
  step U tokens st
  = ([span_at (cursor st) Token.String_Escape [c]],
     {| left := c :: left st; right := cs; stack := s :: below |}).
Proof.
  intros Hs R Hin.
  rewrite (step_tok U st [] (hd string_rule escape) (tl escape) c cs
             Token.String_Escape
             {| m_left := c :: left st; m_right := cs; m_caps := [] |} [c]).
  - rewrite Hs. reflexivity.
  - rewrite Hs. reflexivity.
  - exact R.
  - reflexivity.
  - reflexivity.
  - rewrite R. cbn in Hin.
    repeat (destruct Hin as [<-|Hin]; [reflexivity|]). destruct Hin.
  - reflexivity.
Qed.

Lemma simple_escape_witness :
  step ascii_only tokens
       {| left := [bslash; dquote]; right := codes "n x";
          stack := [St.escape; St.string; St.root] |}
  = ([span_at 2 Token.String_Escape (codes "n")],
     {| left := ch "n" :: [bslash; dquote]; right := codes " x";
        stack := [St.string; St.root] |}).
Proof.
  apply (simple_escape ascii_only
           {| left := [bslash; dquote]; right := codes "n x";
              stack := [St.escape; St.string; St.root] |}
           (ch "n") (codes " x") St.string [St.root]).
  - reflexivity.
  - reflexivity.
  - cbn. tauto.
Defined.

(** X14.  The special operators.  In the state [root] each of [<-], [::],
    [->], [=>], [.], the backslash and [@] at the cursor is taken as one
    [Operator.Word] span, whatever stands before and after it; the stack
    is left alone. *)
Theorem operator_token (U : unitab) (st : dstate) (op rest : text) :
  top (stack st) = St.root ->
  right st = op ++ rest ->
  In op operators ->
  step U tokens st
  = ([span_at (cursor st) Token.Operator_Word op],
     {| left := rev op ++ left st; right := rest; stack := stack st |}).
Proof.
  intros Ht R Hin. destruct st as [l rt stk]. cbn [stack left right] in *.
  subst rt. unfold step. cbn [stack]. rewrite Ht.
  assert (H : exists m,
    first_match U (tokens St.root)
                {| left := l; right := op ++ rest; stack := stk |}
    = Some (nth 17 root string_rule, m) /\
    m_left m = rev op ++ l /\ m_right m = rest).
  { cbn in Hin.
    repeat (destruct Hin as [<-|Hin];
            [eexists; split;
             [apply (first_match_app U (firstn 17 root)
                                     (nth 17 root string_rule)
                                     (skipn 18 root));
              [intros r' Hr; cbn in Hr;
               repeat (destruct Hr as [<-|Hr];
                       [first [reflexivity
                              |apply rematch_none; reflexivity]|]);
               destruct Hr
              |reflexivity]
             |split; reflexivity]|]).
    destruct Hin. }
  destruct H as (m & F & L & Rm). rewrite F.
  cbn [nth root act trans emit after transition fold_left left stack].
  rewrite (matched_app _ _ _ L). unfold after.
  cbn [trans transition fold_left stack]. rewrite L, Rm. reflexivity.
Qed.

Lemma operator_token_witness :
  step ascii_only tokens (init (codes "->x"))
  = ([span_at 0 Token.Operator_Word (codes "->")],
     {| left := rev (codes "->"); right := codes "x";
        stack := [St.root] |}).
Proof.
  apply (operator_token ascii_only (init (codes "->x")) (codes "->")
                        (codes "x")).
  - reflexivity.
  - reflexivity.
  - cbn. tauto.
Defined.

Lemma letter_class (U : unitab) (c : char) :
  in_class U false [Rng (ch "A") (ch "Z"); Rng (ch "a") (ch "z")] c
  = ascii_letter c.
Proof.
  unfold in_class, ascii_letter. cbn [existsb item_has xorb].
  rewrite orb_false_r. reflexivity.
Qed.

Lemma letter_not_space (U : unitab) (c : char) :
  ascii_letter c = true -> is_space U c = false.
Proof.
  unfold ascii_letter, is_space, is_ascii, between. intros H.
  assert (Hc : (65 <= c <= 122)%N).
  { apply orb_true_iff in H. destruct H as [H|H];
      apply andb_true_iff in H; destruct H as [H1 H2];
      apply N.leb_le in H1, H2; lia. }
  destruct (N.ltb_spec c 128); [|lia].
  destruct (N.leb_spec 9 c), (N.leb_spec c 13), (N.leb_spec 28 c),
    (N.leb_spec c 32); simpl; try reflexivity; lia.
Qed.

(** X15.  A name in an import list is one token.  In the state
    [importList], a letter [A-Z] or [a-z] followed by a run [body] of word
    characters, then the end of the input or a character that is not a
    word character, comes out as one [Name] span holding the letter and
    [body]; the stack is left alone. *)
Theorem import_name (U : unitab) (st : dstate) (c : char)
        (body tail : text) :
  top (stack st) = St.importList ->
  right st = c :: body ++ tail ->
  ascii_letter c = true ->
  Forall (fun x => word_char U x = true) body ->
  stops (word_char U) tail ->
  step U tokens st
  = ([span_at (cursor st) Token.Name (c :: body)],
     {| left := rev body ++ c :: left st; right := tail;
        stack := stack st |}).
Proof.
  intros Ht R Hc Hall Hstop.
  set (r := {| pat := Cat letter (Star w_); act := Tok Token.Name;
               trans := [] |}).
  rewrite (step_tok U st (firstn 3 importList) r (skipn 4 importList) c
             (body ++ tail) Token.Name
             {| m_left := rev body ++ c :: left st;
                m_right := tail; m_caps := [] |} (c :: body)).
  - reflexivity.
  - rewrite Ht. reflexivity.
  - exact R.
  - cbn -[N.eqb]. rewrite (letter_not_space U c Hc).
    split_eqb c ltac:(vm_compute in Hc; discriminate).
    reflexivity.
  - reflexivity.
  - rewrite R. unfold rematch. cbn [pat r mtch letter w_].
    unfold one at 1. cbn [m_right].
    rewrite letter_class, Hc. cbn [eat m_left m_right m_caps].
    apply (star_class_match U false [Word]); assumption.
  - simpl. rewrite <- app_assoc. reflexivity.
Qed.

Lemma import_name_witness :
  step ascii_only tokens
       {| left := rev (codes "import ("); right := codes "foo, bar)";
          stack := [St.importList; St.root] |}
  = ([span_at 8 Token.Name (codes "foo")],
     {| left := rev (codes "foo") ++ rev (codes "import (");
        right := codes ", bar)";
        stack := [St.importList; St.root] |}).
Proof.
  apply (import_name ascii_only
           {| left := rev (codes "import ("); right := codes "foo, bar)";
              stack := [St.importList; St.root] |}
           (ch "f") (codes "oo") (codes ", bar)")).
  - reflexivity.
  - reflexivity.
  - reflexivity.
  - repeat constructor.
  - reflexivity.
Defined.
